(** * Asset cache, market-cap ordering and yearn vault balances

    A shallow embedding of
    - [src/state/slices/assetsSlice/assetsSlice.ts]: the normalized asset
      cache ([setAssets], [fetchAsset.fulfilled]), the bulk description
      query ([getAssetDescriptions]) and the selector
      [selectAssetsByMarketCap];
    - the vault balances hook ([getYearnVaults], [makeVaultFiatAmount],
      [mergedVaults] of [useVaultBalances]).

    JavaScript objects are kept as ordered lists of own properties, arrays
    as lists, promises by their settled outcome, [BigNumber] values as
    exact rationals extended with [NaN] and the infinities. *)

From Stdlib Require Import ZArith QArith Qcanon Sorting.Sorted OrdersEx.
From stdpp Require Import base list strings gmap pretty.

(** ** JavaScript objects with string keys

    An object is the list of its own enumerable properties in iteration
    order (insertion order: none of the keys used here is an array index).
    Every operation below keeps the keys of a well-formed object distinct. *)
Module JsObj.

Abbreviation t V := (list (string * V)).

Section ops.
Context {V : Type}.

(** [o[k]]: [None] stands for [undefined]. *)
Fixpoint get (k : string) (o : t V) : option V :=
  match o with
  | [] => None
  | (k', v) :: o' => if decide (k' = k) then Some v else get k o'
  end.

(** [o[k] = v]: an existing property keeps its place, a new one is
    added last. *)
Fixpoint set (k : string) (v : V) (o : t V) : t V :=
  match o with
  | [] => [(k, v)]
  | (k', v') :: o' =>
      if decide (k' = k) then (k, v) :: o' else (k', v') :: set k v o'
  end.

(** [delete o[k]]. *)
Fixpoint delete (k : string) (o : t V) : t V :=
  match o with
  | [] => []
  | (k', v) :: o' =>
      if decide (k' = k) then delete k o' else (k', v) :: delete k o'
  end.

(** [Object.keys(o)], [Object.values(o)], [Object.entries(o)]. *)
Definition keys (o : t V) : list string := o.*1.
Definition values (o : t V) : list V := o.*2.
Definition entries (o : t V) : list (string * V) := o.

(** [{ ...target, ...source }]: the properties of [source] are assigned
    one after the other onto a copy of [target]. *)
Definition spread (target source : t V) : t V :=
  foldl (λ acc kv, set kv.1 kv.2 acc) target source.

(** Keys of an object are pairwise distinct. *)
Definition wf (o : t V) : Prop := NoDup (keys o).
End ops.

Global Arguments spread : simpl never.

End JsObj.

(** ** Arrays and sets *)

(** [set.add(x)] on the insertion-ordered elements of a [Set]. *)
Definition Set_add (acc : list string) (x : string) : list string :=
  if decide (x ∈ acc) then acc else acc ++ [x].

(** [Array.from(new Set(l))]: the first occurrence of every element, in
    order. *)
Definition Array_from_Set (l : list string) : list string :=
  foldl Set_add [] l.

(** ** Asset records and the asset slice *)

Definition CAIP19 : Type := string.

(** The fields of [Asset] (of [@shapeshiftoss/types]) that this code
    reads or writes. *)
Record Asset : Type := mkAsset {
  caip19 : CAIP19;
  name : string;
  symbol : string;
  precision : nat;
  icon : string;
  color : string;
  description : option string
}.

Record AssetsState : Type := mkAssetsState {
  byId : JsObj.t Asset;
  ids : list CAIP19
}.

Definition initialState : AssetsState :=
  {| byId := []; ids := [] |}.

(** Reducer [setAssets]. *)
Definition setAssets (state payload : AssetsState) : AssetsState :=
  {| byId := JsObj.spread (byId state) (byId payload);
     ids := Array_from_Set (ids state ++ ids payload) |}.

(** Extra reducer for [fetchAsset.fulfilled]; [assetCAIP19] is [meta.arg]. *)
Definition fetchAsset_fulfilled
    (state : AssetsState) (assetCAIP19 : CAIP19) (payload : Asset)
    : AssetsState :=
  {| byId := JsObj.set assetCAIP19 payload (byId state);
     ids := if decide (assetCAIP19 ∈ ids state) then ids state
            else ids state ++ [assetCAIP19] |}.

(** Extra reducer for [fetchAsset.rejected]: it only logs. *)
Definition fetchAsset_rejected (state : AssetsState) : AssetsState := state.

(** The actions that reach the slice. *)
Inductive AssetAction : Type :=
  | SetAssets (payload : AssetsState)
  | FetchAssetFulfilled (assetCAIP19 : CAIP19) (payload : Asset)
  | FetchAssetRejected (assetCAIP19 : CAIP19).

Definition assets_reducer (state : AssetsState) (a : AssetAction)
    : AssetsState :=
  match a with
  | SetAssets payload => setAssets state payload
  | FetchAssetFulfilled arg payload => fetchAsset_fulfilled state arg payload
  | FetchAssetRejected _ => fetchAsset_rejected state
  end.

(** The state after dispatching [actions] in order. *)
Definition dispatch_all (state : AssetsState) (actions : list AssetAction)
    : AssetsState :=
  foldl assets_reducer state actions.

(** The identifiers a payload touches: the keys of its [byId] and its
    [ids]. *)
Definition payload_identifiers (p : AssetsState) : list CAIP19 :=
  JsObj.keys (byId p) ++ ids p.

(** ** Promises *)

(** The settled outcome of a promise ([Promise.allSettled], or what an
    [await] sees: a value or a throw). *)
Inductive Settled (A : Type) : Type :=
  | fulfilled (value : A)
  | rejected.
Arguments fulfilled {A} value.
Arguments rejected {A}.

(** ** Bulk description query [getAssetDescriptions] *)

(** [byId[id].description = value] on the record found under [id]. *)
Definition set_description (value : string) (a : Asset) : Asset :=
  {| caip19 := caip19 a; name := name a; symbol := symbol a;
     precision := precision a; icon := icon a; color := color a;
     description := Some value |}.

(** [responses.forEach((res, idx) => ...)]: a rejected response is skipped;
    a fulfilled one is written into the record of [assetIds[idx]], and
    that assignment throws a [TypeError] ([None]) when the working copy
    has no record there. *)
Fixpoint record_descriptions
    (assetIds : list CAIP19) (responses : list (Settled string))
    (byId : JsObj.t Asset) : option (JsObj.t Asset) :=
  match assetIds, responses with
  | id :: assetIds', res :: responses' =>
      match res with
      | rejected => record_descriptions assetIds' responses' byId
      | fulfilled value =>
          match JsObj.get id byId with
          | None => None
          | Some a =>
              record_descriptions assetIds' responses'
                (JsObj.set id (set_description value a) byId)
          end
      end
  | _, _ => Some byId
  end.

(** [queryFn] of [getAssetDescriptions]. [service_description] is
    [service.description({ asset })] seen through [Promise.allSettled];
    [cloneDeep] copies the records by value, and the requests are all
    issued on the copy before any response is recorded. [None] is the
    query failing as a whole. *)
Definition getAssetDescriptions_queryFn
    (service_description : option Asset → Settled string)
    (assetIds : list CAIP19) (state : AssetsState) : option AssetsState :=
  let byIdOriginal := byId state in
  let byId := byIdOriginal in
  let responses :=
    (λ id, service_description (JsObj.get id byId)) <$> assetIds in
  match record_descriptions assetIds responses byId with
  | Some byId' => Some {| byId := byId'; ids := ids state |}
  | None => None
  end.

(** The query followed by [onCacheEntryAdded]. The query reads the state
    when it starts ([getState()]); [onCacheEntryAdded] dispatches
    [setAssets(data)] only after the awaits, onto the store as it is by
    then: [meanwhile] holds the actions that were dispatched in between.
    [None] is the query failing, in which case nothing is dispatched. *)
Definition getAssetDescriptions
    (service_description : option Asset → Settled string)
    (assetIds : list CAIP19) (state : AssetsState)
    (meanwhile : list AssetAction) : option AssetsState :=
  match getAssetDescriptions_queryFn service_description assetIds state with
  | Some data => Some (setAssets (dispatch_all state meanwhile) data)
  | None => None
  end.

(** ** Market-cap ordering [selectAssetsByMarketCap] *)

(** lodash [sortBy(collection, ['name', 'symbol'])]: ascending by [name],
    ties by [symbol] (strings compared code unit by code unit), and stable:
    records that agree on both keep the order they came in. *)
Definition compare_name_symbol (a b : Asset) : comparison :=
  match String.compare (name a) (name b) with
  | Eq => String.compare (symbol a) (symbol b)
  | c => c
  end.

Definition name_symbol_leb (a b : Asset) : bool :=
  match compare_name_symbol a b with
  | Gt => false
  | _ => true
  end.

Fixpoint sort_insert (a : Asset) (l : list Asset) : list Asset :=
  match l with
  | [] => [a]
  | b :: l' => if name_symbol_leb a b then a :: l else b :: sort_insert a l'
  end.

Definition sortBy_name_symbol (l : list Asset) : list Asset :=
  foldr sort_insert [] l.

(** Ascending lexicographic order on [(name, symbol)]. *)
Definition name_symbol_le (a b : Asset) : Prop :=
  String.compare (name a) (name b) = Lt ∨
  (name a = name b ∧ String.compare (symbol a) (symbol b) ≠ Gt).

(** ** Exact decimal numbers ([bignumber.js]) *)
Module BigNumber.

(** A [BigNumber]: [NaN], an infinity, or a finite value, kept as an
    exact rational (the sign of zero is not kept). *)
Inductive t : Type :=
  | NaN
  | Infinity (negative : bool)
  | Finite (q : Qc).

Definition zero : t := Finite 0%Qc.

Definition isFinite (x : t) : bool :=
  match x with Finite _ => true | _ => false end.

Definition is_negative (q : Qc) : bool := bool_decide (q < 0)%Qc.

(** [x.div(y)]. *)
Definition div (x y : t) : t :=
  match x, y with
  | NaN, _ | _, NaN => NaN
  | Infinity _, Infinity _ => NaN
  | Infinity s, Finite d => Infinity (xorb s (is_negative d))
  | Finite _, Infinity _ => zero
  | Finite n, Finite d =>
      if decide (d = 0%Qc) then
        if decide (n = 0%Qc) then NaN else Infinity (is_negative n)
      else Finite (n / d)%Qc
  end.

(** [x.times(y)]. *)
Definition times (x y : t) : t :=
  match x, y with
  | NaN, _ | _, NaN => NaN
  | Infinity s, Infinity s' => Infinity (xorb s s')
  | Infinity s, Finite q | Finite q, Infinity s =>
      if decide (q = 0%Qc) then NaN else Infinity (xorb s (is_negative q))
  | Finite a, Finite b => Finite (a * b)%Qc
  end.

(** [x.plus(y)]. *)
Definition plus (x y : t) : t :=
  match x, y with
  | NaN, _ | _, NaN => NaN
  | Infinity s, Infinity s' => if decide (s = s') then Infinity s else NaN
  | Infinity s, Finite _ | Finite _, Infinity s => Infinity s
  | Finite a, Finite b => Finite (a + b)%Qc
  end.

Definition ten : Qc := Q2Qc (inject_Z 10).

(** The value of the template string [`1e+${precision}`]: a power of
    ten, and [NaN] for ["1e+undefined"]. *)
Definition of_1e (precision : option nat) : t :=
  match precision with
  | Some p => Finite (ten ^ p)%Qc
  | None => NaN
  end.

(** How the library writes a finite value other than zero (plain or
    exponential notation). *)
Class Format : Type := { digits : Qc → string }.

(** [x.toString()]. *)
Definition toString `{Format} (x : t) : string :=
  match x with
  | NaN => "NaN"
  | Infinity false => "Infinity"
  | Infinity true => "-Infinity"
  | Finite q => if decide (q = 0%Qc) then "0" else digits q
  end.

End BigNumber.

(** A value handed to [BigNumber]'s constructor (a numeric string, a
    number or a [BigNumber]) is identified with the [BigNumber] it denotes;
    [None] is [undefined] or [null]. *)
Definition Value : Type := option BigNumber.t.

(** Modelled from the spec: [bnOrZero] of [lib/bignumber/bignumber], which
    is not under [src/]: a missing value, or one that is no finite number,
    is treated as numeric zero, any other value is kept. (The hook also
    applies it to values that are [BigNumber]s already, [amount] and
    [vault.pricePerShare], where only the non-finite case can matter.) *)
Definition bnOrZero (n : Value) : BigNumber.t :=
  match n with
  | Some value => if BigNumber.isFinite value then value else BigNumber.zero
  | None => BigNumber.zero
  end.

(** ** Market data *)

(** [MarketData] records; only [price] is read here. *)
Record MarketData : Type := mkMarketData {
  price : Value
}.

(** ** The store seen by the selector

    [selectAssetsByMarketCap] works by mutation, so the objects it is
    handed are kept in a store and passed by reference. *)
Definition loc : Type := positive.

Record Store : Type := mkStore {
  assetObjects : gmap loc (list (string * Asset));
  marketObjects : gmap loc (list (string * MarketData))
}.

Definition Eff (A : Type) : Type := Store → A * Store.

Global Instance Eff_ret : MRet Eff := λ A a h, (a, h).

Global Instance Eff_bind : MBind Eff := λ A B k m h,
  let '(a, h') := m h in k a h'.

(** lodash [cloneDeep] of an asset map: a fresh object with the same
    properties. *)
Definition cloneDeep (l : loc) : Eff loc := λ h,
  let copy := default [] (assetObjects h !! l) in
  let l' := fresh (dom (assetObjects h)) in
  (l', {| assetObjects := <[l' := copy]> (assetObjects h);
          marketObjects := marketObjects h |}).

(** [assetById[cur]]. *)
Definition getProperty (l : loc) (k : string) : Eff (option Asset) := λ h,
  (assetObjects h !! l ≫= JsObj.get k, h).

(** [delete assetById[cur]]. *)
Definition deleteProperty (l : loc) (k : string) : Eff unit := λ h,
  (tt, {| assetObjects := alter (JsObj.delete k) l (assetObjects h);
          marketObjects := marketObjects h |}).

(** [Object.values(assetById)]. *)
Definition Object_values (l : loc) : Eff (list Asset) := λ h,
  (JsObj.values (default [] (assetObjects h !! l)), h).

(** [Object.keys(marketData)]. *)
Definition Object_keys (l : loc) : Eff (list string) := λ h,
  (JsObj.keys (default [] (marketObjects h !! l)), h).

(** The [reduce] over [caip19ByMarketCap]. *)
Fixpoint reduce_byMarketCap
    (caip19ByMarketCap : list CAIP19) (assetById : loc) (acc : list Asset)
    : Eff (list Asset) :=
  match caip19ByMarketCap with
  | [] => mret acc
  | cur :: rest =>
      asset ← getProperty assetById cur;
      match asset with
      | None => reduce_byMarketCap rest assetById acc
      | Some asset =>
          deleteProperty assetById cur;;
          reduce_byMarketCap rest assetById (acc ++ [asset])
      end
  end.

(** The result function of [selectAssetsByMarketCap]; [marketData] is
    [None] when the market-data selector gives nothing. *)
Definition selectAssetsByMarketCap
    (assetsByIdOriginal : loc) (marketData : option loc)
    : Eff (list Asset) :=
  assetById ← cloneDeep assetsByIdOriginal;
  match marketData with
  | Some marketData =>
      caip19ByMarketCap ← Object_keys marketData;
      sortedWithMarketCap ← reduce_byMarketCap caip19ByMarketCap assetById [];
      remaining ← Object_values assetById;
      let remainingSortedNoMarketCap := sortBy_name_symbol remaining in
      mret (sortedWithMarketCap ++ remainingSortedNoMarketCap)
  | None =>
      remaining ← Object_values assetById;
      mret (sortBy_name_symbol remaining)
  end.

(** ** Yearn vault balances [useVaultBalances] *)

Inductive ChainTypes : Type := Ethereum | Bitcoin.
Inductive NetworkTypes : Type := MAINNET | TESTNET.
Inductive ContractTypes : Type := ERC20 | ERC721 | OTHER | NONE.

(** [caip19.toCAIP19] of [@shapeshiftoss/caip]. *)
Class Caip19Codec : Type := {
  toCAIP19 :
    ChainTypes → NetworkTypes → option ContractTypes → option string → CAIP19
}.

(** An entry of [SUPPORTED_VAULTS]; the metadata beside these fields is
    not read here. *)
Module SupportedYearnVault.
Record t : Type := mk {
  chain : ChainTypes;
  vaultAddress : string;
  tokenAddress : string
}.
End SupportedYearnVault.

(** The static list of [features/earn/providers/yearn/constants/vaults]. *)
Class VaultConstants : Type := {
  SUPPORTED_VAULTS : list SupportedYearnVault.t
}.

(** An entry of [Balances]; [balance] is the raw amount. *)
Module Account.
Record t : Type := mk {
  balance : Value
}.
End Account.

Definition Balances : Type := list (string * Account.t).

(** JavaScript numbers that are only passed along. *)
Definition number : Type := Qc.

Module YearnVault.
Record t : Type := mk {
  net_apy : number
}.
End YearnVault.

(** [YearnVaultApi]: [pricePerShare] is asynchronous and may resolve to
    nothing or reject. *)
Module YearnVaultApi.
Record t : Type := mk {
  pricePerShare : string → Settled Value;
  findByVaultTokenId : string → option YearnVault.t
}.
End YearnVaultApi.

Module EarnVault.
Record t : Type := mk {
  chain : ChainTypes;
  vaultAddress : string;
  tokenAddress : string;
  balance : Value;
  vaultCaip19 : CAIP19;
  tokenCaip19 : CAIP19;
  pricePerShare : BigNumber.t
}.
End EarnVault.

Module MergedEarnVault.
Record t : Type := mk {
  vault : EarnVault.t;
  cryptoAmount : string;
  fiatAmount : string;
  apy : option number
}.
End MergedEarnVault.

(** [await yearn?.pricePerShare({ vaultAddress })]. *)
Definition await_pricePerShare
    (yearn : option YearnVaultApi.t) (vaultAddress : string) : Settled Value :=
  match yearn with
  | None => fulfilled None
  | Some api => YearnVaultApi.pricePerShare api vaultAddress
  end.

Definition vaultCaip19_of `{Caip19Codec} (vault : SupportedYearnVault.t)
    : CAIP19 :=
  toCAIP19 (SupportedYearnVault.chain vault) MAINNET (Some ERC20)
    (Some (SupportedYearnVault.vaultAddress vault)).

Definition tokenCaip19_of `{Caip19Codec} (vault : SupportedYearnVault.t)
    : CAIP19 :=
  toCAIP19 (SupportedYearnVault.chain vault) MAINNET (Some ERC20)
    (Some (SupportedYearnVault.tokenAddress vault)).

(** The [for] loop of [getYearnVaults] from the definition at [index] on;
    a rejected [await] rejects the whole call. *)
Fixpoint getYearnVaults_from `{Caip19Codec}
    (vaults : list SupportedYearnVault.t)
    (balances : Balances) (yearn : option YearnVaultApi.t)
    (acc : list (string * EarnVault.t)) : Settled (list (string * EarnVault.t)) :=
  match vaults with
  | [] => fulfilled acc
  | vault :: rest =>
      let vaultCaip19 := vaultCaip19_of vault in
      let tokenCaip19 := tokenCaip19_of vault in
      match JsObj.get vaultCaip19 balances with
      | Some balance =>
          match await_pricePerShare yearn
                  (SupportedYearnVault.vaultAddress vault) with
          | rejected => rejected
          | fulfilled pricePerShare =>
              getYearnVaults_from rest balances yearn
                (JsObj.set (SupportedYearnVault.vaultAddress vault)
                   {| EarnVault.chain := SupportedYearnVault.chain vault;
                      EarnVault.vaultAddress :=
                        SupportedYearnVault.vaultAddress vault;
                      EarnVault.tokenAddress :=
                        SupportedYearnVault.tokenAddress vault;
                      EarnVault.balance := Account.balance balance;
                      EarnVault.vaultCaip19 := vaultCaip19;
                      EarnVault.tokenCaip19 := tokenCaip19;
                      EarnVault.pricePerShare := bnOrZero pricePerShare |}
                   acc)
          end
      | None => getYearnVaults_from rest balances yearn acc
      end
  end.

Definition getYearnVaults `{Caip19Codec} `{VaultConstants}
    (balances : Balances) (yearn : option YearnVaultApi.t)
    : Settled (list (string * EarnVault.t)) :=
  getYearnVaults_from SUPPORTED_VAULTS balances yearn [].


Definition makeVaultFiatAmount
    (assets : list (string * Asset))
    (marketData_byId : list (string * MarketData))
    (vault : EarnVault.t) : BigNumber.t :=
  let asset := JsObj.get (EarnVault.vaultCaip19 vault) assets in
  let pricePerShare :=
    BigNumber.div (bnOrZero (Some (EarnVault.pricePerShare vault)))
      (BigNumber.of_1e (precision <$> asset)) in
  let marketPrice :=
    JsObj.get (EarnVault.tokenCaip19 vault) marketData_byId ≫= price in
  BigNumber.times
    (BigNumber.times
       (BigNumber.div (bnOrZero (EarnVault.balance vault))
          (BigNumber.of_1e (precision <$> asset)))
       pricePerShare)
    (bnOrZero marketPrice).

Definition totalBalance
    (assets : list (string * Asset))
    (marketData_byId : list (string * MarketData))
    (vaults : list (string * EarnVault.t)) : BigNumber.t :=
  foldl
    (λ acc vault,
       let amount := makeVaultFiatAmount assets marketData_byId vault in
       BigNumber.plus acc (bnOrZero (Some amount)))
    (bnOrZero (Some BigNumber.zero))
    (JsObj.values vaults).

(** The record that the [reduce] of [mergedVaults] stores under
    [vaultAddress]. *)
Definition mergedVault `{BigNumber.Format}
    (assets : list (string * Asset))
    (marketData_byId : list (string * MarketData))
    (yearn : option YearnVaultApi.t)
    (vaultAddress : string) (vault : EarnVault.t) : MergedEarnVault.t :=
  let asset := JsObj.get vaultAddress assets in
  let fiatAmount := makeVaultFiatAmount assets marketData_byId vault in
  let yearnVault :=
    yearn ≫= λ api, YearnVaultApi.findByVaultTokenId api vaultAddress in
  {| MergedEarnVault.vault := vault;
     MergedEarnVault.cryptoAmount :=
       BigNumber.toString
         (BigNumber.div (bnOrZero (EarnVault.balance vault))
            (BigNumber.of_1e (precision <$> asset)));
     MergedEarnVault.fiatAmount := BigNumber.toString fiatAmount;
     MergedEarnVault.apy := YearnVault.net_apy <$> yearnVault |}.

Definition mergedVaults `{BigNumber.Format}
    (assets : list (string * Asset))
    (marketData_byId : list (string * MarketData))
    (yearn : option YearnVaultApi.t)
    (vaults : list (string * EarnVault.t))
    : list (string * MergedEarnVault.t) :=
  foldl
    (λ acc entry,
       let '(vaultAddress, vault) := entry in
       JsObj.set vaultAddress
         (mergedVault assets marketData_byId yearn vaultAddress vault) acc)
    []
    (JsObj.entries vaults).

(** ** Catalog load [getAssets] and the plain selectors *)

(** [queryFn] of [getAssets]: the [reduce] over [assetArray], the answer of
    [service.byNetwork(NetworkTypes.MAINNET)], from a copy of
    [initialState]. *)
Definition getAssets_queryFn (assetArray : list Asset) : AssetsState :=
  foldl
    (λ acc cur,
       {| byId := JsObj.set (caip19 cur) cur (byId acc);
          ids := ids acc ++ [caip19 cur] |})
    initialState assetArray.

(** The query followed by [onCacheEntryAdded], which dispatches
    [setAssets(data)]. *)
Definition getAssets (assetArray : list Asset) (state : AssetsState)
    : AssetsState :=
  setAssets state (getAssets_queryFn assetArray).

Definition selectAssets (state : AssetsState) : list (string * Asset) :=
  byId state.

Definition selectAssetIds (state : AssetsState) : list CAIP19 := ids state.

Definition selectAssetByCAIP19 (state : AssetsState) (CAIP19_ : CAIP19)
    : option Asset :=
  JsObj.get CAIP19_ (byId state).

(** [Object.values(byId).find(asset => asset.symbol === symbol)]. *)
Definition selectAssetBySymbol (state : AssetsState) (symbol_ : string)
    : option Asset :=
  List.find (λ asset, bool_decide (symbol asset = symbol_))
    (JsObj.values (byId state)).

(** [ids] lists the keys of [byId]. *)
Definition ids_match_byId (state : AssetsState) : Prop :=
  ∀ k, k ∈ JsObj.keys (byId state) ↔ k ∈ ids state.

Definition payload_ids_match_byId (a : AssetAction) : Prop :=
  match a with
  | SetAssets payload => ids_match_byId payload
  | _ => True
  end.

(** The arguments of the [fetchAsset] thunks that the effect of
    [useVaultBalances] dispatches, in order: for each computed vault its
    [vaultCaip19], then its [tokenCaip19]. *)
Definition effect_fetchAsset_args (yearnVaults : list (string * EarnVault.t))
    : list CAIP19 :=
  flat_map (λ vault, [EarnVault.vaultCaip19 vault; EarnVault.tokenCaip19 vault])
    (JsObj.values yearnVaults).

(** ** Sample data *)
Module Sample.

Definition eth : Asset :=
  {| caip19 := "eip155:1/slip44:60"; name := "Ethereum"; symbol := "ETH";
     precision := 18; icon := "eth.png"; color := "#FFFFFF";
     description := None |}.

Definition btc : Asset :=
  {| caip19 := "bip122:000000000019d6689c085ae165831e93/slip44:0";
     name := "Bitcoin"; symbol := "BTC";
     precision := 8; icon := "btc.png"; color := "#FF9800";
     description := None |}.

Definition fox : Asset :=
  {| caip19 := "eip155:1/erc20:0xc770eefad204b5180df6a14ee197d99d808ee52d";
     name := "Fox"; symbol := "FOX";
     precision := 18; icon := "fox.png"; color := "#3761F9";
     description := None |}.

(** A payload that holds one asset. *)
Definition only (a : Asset) : AssetsState :=
  {| byId := [(caip19 a, a)]; ids := [caip19 a] |}.

(** A cache with the three assets. *)
Definition cache : AssetsState :=
  {| byId := [(caip19 eth, eth); (caip19 btc, btc); (caip19 fox, fox)];
     ids := [caip19 eth; caip19 btc; caip19 fox] |}.

(** A description service that fails for bitcoin only. *)
Definition service_description (asset : option Asset) : Settled string :=
  match asset with
  | Some a =>
      if decide (caip19 a = caip19 btc) then rejected
      else fulfilled ("About " +:+ name a)
  | None => rejected
  end.

(** Market data that ranks bitcoin first, ethereum second, and has no
    entry for fox. *)
Definition marketData : list (string * MarketData) :=
  [(caip19 btc, {| price := None |}); (caip19 eth, {| price := None |})].

Definition store : Store :=
  {| assetObjects := {[ 1%positive := byId cache ]};
     marketObjects := {[ 1%positive := marketData ]} |}.

Definition of_Z (z : Z) : BigNumber.t := BigNumber.Finite (Q2Qc (inject_Z z)).

(** A codec in the style of CAIP-19 for the vault examples. *)
Definition codec : Caip19Codec :=
  {| toCAIP19 := λ chain network contractType tokenId,
       (match chain with Ethereum => "eip155" | Bitcoin => "bip122" end)
       +:+ (match network with MAINNET => ":1" | TESTNET => ":3" end)
       +:+ (match contractType with
            | Some ERC20 => "/erc20"
            | Some ERC721 => "/erc721"
            | _ => "/slip44"
            end)
       +:+ (match tokenId with Some id => ":" +:+ id | None => "" end) |}.

Definition usdcVault : SupportedYearnVault.t :=
  {| SupportedYearnVault.chain := Ethereum;
     SupportedYearnVault.vaultAddress := "0x5f18";
     SupportedYearnVault.tokenAddress := "0xa0b8" |}.

Definition daiVault : SupportedYearnVault.t :=
  {| SupportedYearnVault.chain := Ethereum;
     SupportedYearnVault.vaultAddress := "0xda81";
     SupportedYearnVault.tokenAddress := "0x6b17" |}.

Definition constants : VaultConstants :=
  {| SUPPORTED_VAULTS := [usdcVault; daiVault] |}.

Definition one_unit : Account.t :=
  {| Account.balance := Some (of_Z 1000000000000000000) |}.

(** A wallet that holds both vault tokens. *)
Definition balances : Balances :=
  [("eip155:1/erc20:0x5f18", one_unit); ("eip155:1/erc20:0xda81", one_unit)].

(** A wallet that holds the first vault token only. *)
Definition balances_usdc : Balances :=
  [("eip155:1/erc20:0x5f18", one_unit)].

(** A provider whose [pricePerShare] answers for the first vault and
    rejects for the second. *)
Definition yearn_failing : YearnVaultApi.t :=
  {| YearnVaultApi.pricePerShare := λ vaultAddress,
       if decide (vaultAddress = "0x5f18")
       then fulfilled (Some (of_Z 2000000000000000000))
       else rejected;
     YearnVaultApi.findByVaultTokenId := λ _, None |}.

(** A provider whose [pricePerShare] resolves to nothing. *)
Definition yearn_silent : YearnVaultApi.t :=
  {| YearnVaultApi.pricePerShare := λ _, fulfilled None;
     YearnVaultApi.findByVaultTokenId := λ _, None |}.

(** The vault of the fiat amount scenario: balance 1.0 and price per
    share 2.0 at precision 18. *)
Definition held : EarnVault.t :=
  {| EarnVault.chain := Ethereum;
     EarnVault.vaultAddress := "0x5f18";
     EarnVault.tokenAddress := "0xa0b8";
     EarnVault.balance := Some (of_Z 1000000000000000000);
     EarnVault.vaultCaip19 := "eip155:1/erc20:0x5f18";
     EarnVault.tokenCaip19 := "eip155:1/erc20:0xa0b8";
     EarnVault.pricePerShare := of_Z 2000000000000000000 |}.

Definition yvUSDC : Asset :=
  {| caip19 := "eip155:1/erc20:0x5f18"; name := "USDC yVault";
     symbol := "yvUSDC"; precision := 18; icon := "yv.png";
     color := "#276BDB"; description := None |}.

Definition prices : list (string * MarketData) :=
  [("eip155:1/erc20:0xa0b8", {| price := Some (of_Z 10) |})].

(** Integers in plain notation, for the examples. *)
Definition notation : BigNumber.Format :=
  {| BigNumber.digits := λ q, pretty (Qnum (this q)) |}.

End Sample.

(* ===================================================================== *)
(** * Properties *)
(* ===================================================================== *)

(** ** Objects *)
Module JsObjFacts.
Import JsObj.

Section facts.
Context {V : Type}.
Implicit Types (o : t V) (k : string) (v : V).

Lemma get_set_eq k v o : get k (set k v o) = Some v.
Proof.
  induction o as [|[k' v'] o IH]; simpl.
  - by rewrite decide_True.
  - destruct (decide (k' = k)); simpl.
    + by rewrite decide_True.
    + by rewrite decide_False.
Qed.

Lemma get_set_ne k k' v o : k ≠ k' → get k' (set k v o) = get k' o.
Proof.
  intros Hne. induction o as [|[k0 v0] o IH]; simpl.
  - by rewrite decide_False.
  - destruct (decide (k0 = k)) as [->|]; simpl.
    + by rewrite !decide_False.
    + by rewrite IH.
Qed.

Lemma get_Some_keys k v o : get k o = Some v → k ∈ keys o.
Proof.
  induction o as [|[k' v'] o IH]; simpl; [done|].
  destruct (decide (k' = k)) as [->|]; intros; [left | right; auto].
Qed.

Lemma get_None_keys k o : get k o = None ↔ k ∉ keys o.
Proof.
  induction o as [|[k' v'] o IH]; simpl.
  - split; [intros _; apply not_elem_of_nil | done].
  - rewrite not_elem_of_cons. destruct (decide (k' = k)) as [->|].
    + split; [done | by intros [? _]].
    + rewrite IH. split; [by intros ? | by intros [_ ?]].
Qed.

Lemma keys_get k o : k ∈ keys o → is_Some (get k o).
Proof.
  intros Hin. destruct (get k o) eqn:E; [eauto|].
  by apply get_None_keys in E.
Qed.

Lemma get_elem_of k v o : get k o = Some v → (k, v) ∈ o.
Proof.
  induction o as [|[k' v'] o IH]; simpl; [done|].
  destruct (decide (k' = k)) as [->|].
  - intros [= ->]. left.
  - intros. right. auto.
Qed.

Lemma elem_of_get k v o : wf o → (k, v) ∈ o → get k o = Some v.
Proof.
  unfold wf, keys. induction o as [|[k' v'] o IH]; simpl.
  - intros _ Hin. by apply elem_of_nil in Hin.
  - rewrite NoDup_cons. intros [Hk Hnd] Hin.
    apply elem_of_cons in Hin as [[= -> ->]|Hin].
    + by rewrite decide_True.
    + rewrite decide_False; [auto|].
      intros ->. apply Hk. apply list_elem_of_fmap. by exists (k, v).
Qed.

Lemma set_id k v o : get k o = Some v → set k v o = o.
Proof.
  induction o as [|[k' v'] o IH]; simpl; [done|].
  destruct (decide (k' = k)) as [->|].
  - by intros [= ->].
  - intros. by rewrite IH.
Qed.

Lemma keys_set_in k v o : k ∈ keys o → keys (set k v o) = keys o.
Proof.
  unfold keys. induction o as [|[k' v'] o IH]; simpl.
  - intros Hin. by apply elem_of_nil in Hin.
  - intros Hin. destruct (decide (k' = k)) as [->|Hne]; csimpl; [done|].
    apply elem_of_cons in Hin as [->|Hin]; [done|]. by rewrite IH.
Qed.

Lemma keys_set_notin k v o : k ∉ keys o → keys (set k v o) = keys o ++ [k].
Proof.
  unfold keys. induction o as [|[k' v'] o IH]; simpl; [done|].
  rewrite not_elem_of_cons. intros [Hne Hin].
  rewrite decide_False by done. csimpl. by rewrite IH.
Qed.

Lemma elem_of_keys_set k k' v o :
  k' ∈ keys (set k v o) ↔ k' = k ∨ k' ∈ keys o.
Proof.
  destruct (decide (k ∈ keys o)) as [Hin|Hin].
  - rewrite keys_set_in by done. split; [auto | by intros [->|?]].
  - rewrite keys_set_notin by done.
    rewrite elem_of_app, list_elem_of_singleton. tauto.
Qed.

Lemma wf_set k v o : wf o → wf (set k v o).
Proof.
  unfold wf. intros Hwf. destruct (decide (k ∈ keys o)) as [Hin|Hin].
  - by rewrite keys_set_in.
  - rewrite keys_set_notin by done. apply NoDup_app. split_and!; [done| |].
    + intros x Hx ->%list_elem_of_singleton. done.
    + apply NoDup_singleton.
Qed.

(** Assigning twice to one property is assigning the last value. *)
Lemma set_set_eq k v v' o : set k v (set k v' o) = set k v o.
Proof.
  induction o as [|[k0 v0] o IH]; simpl.
  - by rewrite decide_True.
  - destruct (decide (k0 = k)) as [->|]; simpl.
    + by rewrite decide_True.
    + by rewrite decide_False, IH.
Qed.

(** Assignments to two properties commute once one of them exists. *)
Lemma set_set_ne k1 k2 v1 v2 o :
  k1 ≠ k2 → k1 ∈ keys o →
  set k1 v1 (set k2 v2 o) = set k2 v2 (set k1 v1 o).
Proof.
  unfold keys. intros Hne. induction o as [|[k0 v0] o IH]; csimpl.
  - intros Hin. by apply elem_of_nil in Hin.
  - intros Hin. repeat (case_decide; simplify_eq/=); try done.
    apply elem_of_cons in Hin as [->|Hin]; [done|]. by rewrite IH.
Qed.

Lemma get_delete_eq k o : get k (delete k o) = None.
Proof.
  induction o as [|[k' v'] o IH]; simpl; [done|].
  destruct (decide (k' = k)); simpl; [done|]. by rewrite decide_False.
Qed.

Lemma get_delete_ne k k' o : k ≠ k' → get k' (delete k o) = get k' o.
Proof.
  intros Hne. induction o as [|[k0 v0] o IH]; simpl; [done|].
  destruct (decide (k0 = k)) as [->|]; simpl.
  - by rewrite decide_False.
  - by rewrite IH.
Qed.

Lemma delete_filter k o : delete k o = filter (λ kv, kv.1 ≠ k) o.
Proof.
  induction o as [|[k' v'] o IH]; [done|].
  rewrite filter_cons. simpl. rewrite IH.
  destruct (decide (k' = k)) as [->|Hne].
  - by rewrite decide_False by auto.
  - by rewrite decide_True.
Qed.

Lemma delete_notin k o : k ∉ keys o → delete k o = o.
Proof.
  unfold keys. induction o as [|[k' v'] o IH]; simpl; [done|].
  rewrite not_elem_of_cons. intros [Hne Hin].
  rewrite decide_False by done. by rewrite IH.
Qed.

(** *** Spread *)

Lemma spread_nil o : spread o [] = o.
Proof. done. Qed.

Lemma spread_cons o k v src :
  spread o ((k, v) :: src) = spread (set k v o) src.
Proof. done. Qed.

Lemma spread_snoc o k v src :
  spread o (src ++ [(k, v)]) = set k v (spread o src).
Proof. unfold spread. by rewrite foldl_app. Qed.

Lemma elem_of_keys_spread k o src :
  k ∈ keys (spread o src) ↔ k ∈ keys o ∨ k ∈ keys src.
Proof.
  revert o. induction src as [|[k' v'] src IH]; intros o.
  - rewrite spread_nil. unfold keys at 3. csimpl.
    rewrite elem_of_nil. tauto.
  - rewrite spread_cons, IH, elem_of_keys_set. unfold keys at 4. csimpl.
    rewrite elem_of_cons. tauto.
Qed.

Lemma wf_spread o src : wf o → wf (spread o src).
Proof.
  revert o. induction src as [|[k v] src IH]; intros o Hwf; [done|].
  rewrite spread_cons. by apply IH, wf_set.
Qed.

(** A property that the source lacks is read from the target. *)
Lemma get_spread_notin k o src :
  k ∉ keys src → get k (spread o src) = get k o.
Proof.
  revert o. unfold keys.
  induction src as [|[k' v'] src IH]; intros o; [done|]. csimpl.
  rewrite not_elem_of_cons. intros [Hne Hin].
  rewrite spread_cons, IH by done. by apply get_set_ne.
Qed.

(** A property of the source does not depend on the target. *)
Lemma get_spread_in k o1 o2 src :
  k ∈ keys src → get k (spread o1 src) = get k (spread o2 src).
Proof.
  revert o1 o2. unfold keys.
  induction src as [|[k' v'] src IH]; intros o1 o2; csimpl.
  - intros Hin. by apply elem_of_nil in Hin.
  - intros Hin. rewrite !spread_cons.
    destruct (decide (k ∈ src.*1)) as [Hin'|Hin'].
    + by apply IH.
    + apply elem_of_cons in Hin as [->|Hin]; [|done].
      rewrite !get_spread_notin by done. by rewrite !get_set_eq.
Qed.

Lemma get_spread_wf k v o src :
  wf src → (k, v) ∈ src → get k (spread o src) = Some v.
Proof.
  intros Hwf Hin. rewrite (get_spread_in k o [] src).
  - clear o. revert Hwf Hin. unfold wf, keys.
    induction src as [|[k' v'] src IH] using rev_ind; intros Hwf Hin.
    + by apply elem_of_nil in Hin.
    + rewrite spread_snoc. rewrite fmap_app in Hwf. simpl in Hwf.
      apply NoDup_app in Hwf as (Hnd & Hdisj & _).
      apply elem_of_app in Hin as [Hin|Hin%list_elem_of_singleton].
      * rewrite get_set_ne; [by apply IH|].
        intros ->. eapply Hdisj; [|left].
        apply list_elem_of_fmap. by exists (k, v).
      * injection Hin as -> ->. apply get_set_eq.
  - apply list_elem_of_fmap. by exists (k, v).
Qed.

(** Assigning over a property that is overwritten later anyway. *)
Lemma set_spread_set k v v' o src :
  (∀ k', k' ∈ keys src → k' ∈ keys o) →
  set k v (spread (set k v' o) src) = set k v (spread o src).
Proof.
  revert o. induction src as [|[k1 v1] src IH]; intros o Hsub.
  - rewrite !spread_nil. apply set_set_eq.
  - rewrite !spread_cons.
    assert (Hsub' : ∀ v2 k', k' ∈ keys src → k' ∈ keys (set k1 v2 o)).
    { intros v2 k' Hk'. apply elem_of_keys_set. right. apply Hsub.
      unfold keys. simpl. by right. }
    destruct (decide (k1 = k)) as [->|Hne].
    + by rewrite set_set_eq.
    + rewrite set_set_ne; [apply IH, Hsub' | done |].
      apply Hsub. unfold keys. csimpl. left.
Qed.

(** Spreading the same source a second time changes nothing. *)
Lemma spread_spread_same o src :
  spread (spread o src) src = spread o src.
Proof.
  induction src as [|[k v] src IH] using rev_ind; [done|].
  rewrite !spread_snoc, set_spread_set.
  - by rewrite IH.
  - intros k' Hk'. apply elem_of_keys_spread. by right.
Qed.
End facts.
End JsObjFacts.

(** ** Insertion-ordered sets *)
Section array_from_set.
Implicit Types (acc l : list string) (x : string).

Lemma elem_of_foldl_Set_add x acc l :
  x ∈ foldl Set_add acc l ↔ x ∈ acc ∨ x ∈ l.
Proof.
  revert acc. induction l as [|y l IH]; intros acc; simpl.
  - rewrite elem_of_nil. tauto.
  - rewrite IH, elem_of_cons. unfold Set_add. case_decide.
    + split; [tauto|]. intros [?|[->|?]]; auto.
    + rewrite elem_of_app, list_elem_of_singleton. tauto.
Qed.

Lemma NoDup_foldl_Set_add acc l : NoDup acc → NoDup (foldl Set_add acc l).
Proof.
  revert acc. induction l as [|y l IH]; intros acc Hnd; simpl; [done|].
  apply IH. unfold Set_add. case_decide; [done|].
  apply NoDup_app. split_and!; [done| |apply NoDup_singleton].
  by intros z Hz ->%list_elem_of_singleton.
Qed.

(** Adding elements that are all there already changes nothing. *)
Lemma foldl_Set_add_absorb acc l :
  (∀ x, x ∈ l → x ∈ acc) → foldl Set_add acc l = acc.
Proof.
  induction l as [|y l IH]; intros Hsub; simpl; [done|].
  unfold Set_add at 2. rewrite decide_True by (apply Hsub; left).
  apply IH. intros x Hx. apply Hsub. by right.
Qed.

Lemma foldl_Set_add_fresh acc l :
  NoDup (acc ++ l) → foldl Set_add acc l = acc ++ l.
Proof.
  revert acc. induction l as [|y l IH]; intros acc Hnd; simpl.
  - by rewrite app_nil_r.
  - replace (acc ++ y :: l) with ((acc ++ [y]) ++ l) in *
      by (by rewrite <- app_assoc).
    unfold Set_add at 2. rewrite decide_False; [by apply IH|].
    intros Hin. apply NoDup_app in Hnd as (Hnd & _ & _).
    apply NoDup_app in Hnd as (_ & Hdisj & _).
    apply (Hdisj y Hin). left.
Qed.

Lemma NoDup_Array_from_Set l : NoDup (Array_from_Set l).
Proof. apply NoDup_foldl_Set_add, NoDup_nil_2. Qed.

Lemma elem_of_Array_from_Set x l : x ∈ Array_from_Set l ↔ x ∈ l.
Proof.
  unfold Array_from_Set. rewrite elem_of_foldl_Set_add, elem_of_nil. tauto.
Qed.

Lemma Array_from_Set_NoDup l : NoDup l → Array_from_Set l = l.
Proof. intros Hnd. by apply (foldl_Set_add_fresh []). Qed.

Lemma Array_from_Set_app l1 l2 :
  Array_from_Set (l1 ++ l2) = foldl Set_add (Array_from_Set l1) l2.
Proof. unfold Array_from_Set. by rewrite foldl_app. Qed.
End array_from_set.

(** ** The asset slice *)

(** C2. Upsert idempotence: dispatching [setAssets] with the same payload a
    second time leaves [{byId, ids}] as the first dispatch left it, for
    every cache state and every payload. *)
Theorem setAssets_idempotent (state payload : AssetsState) :
  setAssets (setAssets state payload) payload = setAssets state payload.
Proof.
  unfold setAssets. simpl. f_equal.
  - apply JsObjFacts.spread_spread_same.
  - rewrite Array_from_Set_app.
    rewrite (Array_from_Set_NoDup (Array_from_Set _))
      by apply NoDup_Array_from_Set.
    apply foldl_Set_add_absorb. intros x Hx.
    apply elem_of_Array_from_Set, elem_of_app. by right.
Qed.

(** C3, as stated, fails: two payloads on disjoint identifiers, dispatched
    in the two orders on the empty cache, leave [ids] (and the properties
    of [byId]) in arrival order. *)
Lemma setAssets_arrival_order :
  let A := Sample.only Sample.eth in
  let B := Sample.only Sample.btc in
  (∀ k, k ∈ payload_identifiers A → k ∉ payload_identifiers B) ∧
  ids (setAssets (setAssets initialState A) B)
    = [caip19 Sample.eth; caip19 Sample.btc] ∧
  ids (setAssets (setAssets initialState B) A)
    = [caip19 Sample.btc; caip19 Sample.eth] ∧
  setAssets (setAssets initialState A) B
    ≠ setAssets (setAssets initialState B) A.
Proof.
  split_and!; [|reflexivity|reflexivity|discriminate].
  intros k Hk Hk'. vm_compute in Hk, Hk'.
  repeat (apply elem_of_cons in Hk as [->|Hk]);
    repeat (apply elem_of_cons in Hk' as [Hk'|Hk']);
    try discriminate; by apply elem_of_nil in Hk || by apply elem_of_nil in Hk'.
Qed.

(** C3, amended. For payloads whose [byId] keys are disjoint, the two
    dispatch orders agree on the record found under every identifier, and
    their [ids] hold the same identifiers, each once (in possibly
    different order). *)
Theorem setAssets_commute_disjoint (state A B : AssetsState) :
  (∀ k, k ∈ JsObj.keys (byId A) → k ∉ JsObj.keys (byId B)) →
  let AB := setAssets (setAssets state A) B in
  let BA := setAssets (setAssets state B) A in
  (∀ k, JsObj.get k (byId AB) = JsObj.get k (byId BA)) ∧
  ids AB ≡ₚ ids BA ∧ NoDup (ids AB) ∧ NoDup (ids BA).
Proof.
  intros Hdisj AB BA. split_and!.
  - intros k. unfold AB, BA, setAssets. simpl.
    destruct (decide (k ∈ JsObj.keys (byId B))) as [HB|HB].
    + assert (HA : k ∉ JsObj.keys (byId A)) by (intros HA; by apply (Hdisj k)).
      rewrite (JsObjFacts.get_spread_notin k _ (byId A)) by done.
      by apply JsObjFacts.get_spread_in.
    + rewrite (JsObjFacts.get_spread_notin k _ (byId B)) by done.
      destruct (decide (k ∈ JsObj.keys (byId A))) as [HA|HA].
      * by apply JsObjFacts.get_spread_in.
      * by rewrite !JsObjFacts.get_spread_notin.
  - apply NoDup_Permutation; try apply NoDup_Array_from_Set.
    intros x. unfold AB, BA, setAssets. simpl.
    rewrite !elem_of_Array_from_Set, !elem_of_app, !elem_of_Array_from_Set,
      !elem_of_app. tauto.
  - apply NoDup_Array_from_Set.
  - apply NoDup_Array_from_Set.
Qed.

(** The two orders of the counterexample above. *)
Lemma setAssets_commute_disjoint_witness :
  let A := Sample.only Sample.eth in
  let B := Sample.only Sample.btc in
  let AB := setAssets (setAssets initialState A) B in
  let BA := setAssets (setAssets initialState B) A in
  (∀ k, JsObj.get k (byId AB) = JsObj.get k (byId BA)) ∧
  ids AB ≡ₚ ids BA ∧ NoDup (ids AB) ∧ NoDup (ids BA).
Proof.
  apply (setAssets_commute_disjoint initialState
           (Sample.only Sample.eth) (Sample.only Sample.btc)).
  intros k Hk Hk'. vm_compute in Hk, Hk'.
  apply list_elem_of_singleton in Hk, Hk'. congruence.
Defined.

(** C7. No duplicate ids: whatever actions are dispatched on the initial
    state, in whatever order, [ids] never holds an identifier twice. *)
Theorem dispatch_all_ids_NoDup (actions : list AssetAction) :
  NoDup (ids (dispatch_all initialState actions)).
Proof.
  unfold dispatch_all.
  assert (H : ∀ s, NoDup (ids s) → NoDup (ids (foldl assets_reducer s actions))).
  { induction actions as [|a actions IH]; intros s Hs; simpl; [done|].
    apply IH. destruct a as [payload|arg payload|arg]; simpl.
    - apply NoDup_Array_from_Set.
    - case_decide; [done|].
      apply NoDup_app. split_and!; [done| |apply NoDup_singleton].
      by intros z Hz ->%list_elem_of_singleton.
    - done. }
  apply H. simpl. apply NoDup_nil_2.
Qed.

(** Every state reached from the initial one is a well-formed object: the
    keys of [byId] are distinct, whatever the payloads were. *)
Lemma dispatch_all_byId_wf (actions : list AssetAction) :
  JsObj.wf (byId (dispatch_all initialState actions)).
Proof.
  unfold dispatch_all.
  assert (H : ∀ s, JsObj.wf (byId s) →
                JsObj.wf (byId (foldl assets_reducer s actions))).
  { induction actions as [|a actions IH]; intros s Hs; simpl; [done|].
    apply IH. destruct a as [payload|arg payload|arg]; simpl.
    - by apply JsObjFacts.wf_spread.
    - by apply JsObjFacts.wf_set.
    - done. }
  apply H. apply NoDup_nil_2.
Qed.

(** ** Ordering by name and symbol *)

Section ordering.

Lemma String_compare_OT (s1 s2 : string) :
  String.compare s1 s2 = String_as_OT.compare s1 s2.
Proof.
  revert s2. induction s1 as [|c1 s1 IH]; intros [|c2 s2]; simpl; [done..|].
  rewrite IH. reflexivity.
Qed.

Lemma String_compare_refl (s : string) : String.compare s s = Eq.
Proof.
  rewrite String_compare_OT.
  destruct (String_as_OT.compare_spec s s) as [?|Hlt|Hlt]; [done| |];
    by apply (irreflexivity String_as_OT.lt) in Hlt.
Qed.

Lemma String_compare_Lt_trans (s1 s2 s3 : string) :
  String.compare s1 s2 = Lt → String.compare s2 s3 = Lt →
  String.compare s1 s3 = Lt.
Proof.
  rewrite !String_compare_OT.
  apply (transitivity (R := String_as_OT.lt)).
Qed.

Lemma String_compare_not_Gt_trans (s1 s2 s3 : string) :
  String.compare s1 s2 ≠ Gt → String.compare s2 s3 ≠ Gt →
  String.compare s1 s3 ≠ Gt.
Proof.
  intros H12 H23.
  destruct (String.compare s1 s2) eqn:E12; [| |done].
  - by apply String.compare_eq_iff in E12 as ->.
  - destruct (String.compare s2 s3) eqn:E23; [| |done].
    + apply String.compare_eq_iff in E23 as <-. by rewrite E12.
    + by rewrite (String_compare_Lt_trans _ _ _ E12 E23).
Qed.

Lemma name_symbol_leb_le (a b : Asset) :
  name_symbol_leb a b = true ↔ name_symbol_le a b.
Proof.
  unfold name_symbol_leb, compare_name_symbol, name_symbol_le.
  destruct (String.compare (name a) (name b)) eqn:En.
  - apply String.compare_eq_iff in En.
    destruct (String.compare (symbol a) (symbol b)); split;
      try done; try (intros _; by right); by intros [?|[_ ?]].
  - split; [by left | done].
  - split; [done|]. intros [?|[Heq _]]; [done|].
    rewrite Heq, String_compare_refl in En. done.
Qed.

Lemma name_symbol_le_total (a b : Asset) :
  name_symbol_le a b ∨ name_symbol_le b a.
Proof.
  unfold name_symbol_le.
  rewrite (String.compare_antisym (name b) (name a)).
  rewrite (String.compare_antisym (symbol b) (symbol a)).
  destruct (String.compare (name a) (name b)) eqn:En; simpl.
  - apply String.compare_eq_iff in En.
    destruct (String.compare (symbol a) (symbol b)); simpl.
    + left. by right.
    + left. by right.
    + right. by right.
  - by left; left.
  - by right; left.
Qed.

Lemma name_symbol_le_trans : Transitive name_symbol_le.
Proof.
  intros a b c [Hab|[Hab Hab']] [Hbc|[Hbc Hbc']].
  - left. by eapply String_compare_Lt_trans.
  - left. by rewrite <- Hbc.
  - left. by rewrite Hab.
  - right. split; [congruence|]. by eapply String_compare_not_Gt_trans.
Qed.

Lemma sort_insert_Permutation (a : Asset) (l : list Asset) :
  sort_insert a l ≡ₚ a :: l.
Proof.
  induction l as [|b l IH]; simpl; [done|].
  destruct (name_symbol_leb a b); [done|].
  rewrite IH. apply Permutation_swap.
Qed.

Lemma sortBy_name_symbol_Permutation (l : list Asset) :
  sortBy_name_symbol l ≡ₚ l.
Proof.
  induction l as [|a l IH]; simpl; [done|].
  by rewrite sort_insert_Permutation, IH.
Qed.

Lemma sort_insert_StronglySorted (a : Asset) (l : list Asset) :
  StronglySorted name_symbol_le l →
  StronglySorted name_symbol_le (sort_insert a l).
Proof.
  induction 1 as [|b l Hl IH Hb]; simpl.
  - repeat constructor.
  - destruct (name_symbol_leb a b) eqn:E.
    + apply name_symbol_leb_le in E. constructor; [by constructor|].
      constructor; [done|].
      eapply Forall_impl; [exact Hb|]. intros c Hc.
      by apply (name_symbol_le_trans a b c).
    + constructor; [done|].
      assert (Hba : name_symbol_le b a).
      { destruct (name_symbol_le_total a b) as [Hab|Hba]; [|done].
        apply name_symbol_leb_le in Hab. congruence. }
      rewrite sort_insert_Permutation. by constructor.
Qed.

Lemma sortBy_name_symbol_StronglySorted (l : list Asset) :
  StronglySorted name_symbol_le (sortBy_name_symbol l).
Proof.
  induction l as [|a l IH]; simpl; [constructor|].
  by apply sort_insert_StronglySorted.
Qed.

End ordering.

(** ** The selector [selectAssetsByMarketCap] *)
Section selector.
Implicit Types (h : Store) (o : list (string * Asset)) (ks : list string).

Lemma filter_keys_notin_nil o : filter (λ kv, kv.1 ∉ @nil string) o = o.
Proof.
  induction o as [|kv o IH]; [done|].
  rewrite filter_cons_True by apply not_elem_of_nil. by rewrite IH.
Qed.

Lemma filter_keys_notin_cons k ks o :
  filter (λ kv, kv.1 ∉ ks) (JsObj.delete k o)
  = filter (λ kv, kv.1 ∉ k :: ks) o.
Proof.
  induction o as [|[k' v'] o IH]; [done|]. simpl.
  destruct (decide (k' = k)) as [->|Hne].
  - rewrite IH. rewrite (filter_cons_False _ (k, v')); [done|].
    simpl. intros Hk. apply Hk. left.
  - rewrite !filter_cons, IH. simpl.
    destruct (decide (k' ∈ ks)) as [Hin|Hin].
    + rewrite !decide_False; [done | | by auto].
      intros Hk. apply Hk. by right.
    + rewrite !decide_True; [done | | done].
      by intros [?|?]%elem_of_cons.
Qed.

Lemma omap_get_delete k ks o :
  k ∉ ks →
  omap (λ k', JsObj.get k' (JsObj.delete k o)) ks
  = omap (λ k', JsObj.get k' o) ks.
Proof.
  induction ks as [|k' ks IH]; [done|].
  rewrite not_elem_of_cons. intros [Hne Hin]. csimpl.
  rewrite JsObjFacts.get_delete_ne by done. by rewrite IH.
Qed.

(** The [reduce]: the records found under the ranked keys, in that order,
    are moved out of the working copy [assetById]; nothing else in the
    store is written. *)
Lemma reduce_byMarketCap_spec ks assetById acc h o :
  NoDup ks → assetObjects h !! assetById = Some o →
  reduce_byMarketCap ks assetById acc h
  = (acc ++ omap (λ k, JsObj.get k o) ks,
     {| assetObjects :=
          <[assetById := filter (λ kv, kv.1 ∉ ks) o]> (assetObjects h);
        marketObjects := marketObjects h |}).
Proof.
  revert acc h o. induction ks as [|cur rest IH]; intros acc h o Hnd Ho.
  - simpl. unfold mret, Eff_ret. rewrite app_nil_r, filter_keys_notin_nil.
    rewrite insert_id by done. by destruct h.
  - apply NoDup_cons in Hnd as [Hcur Hnd]. simpl.
    unfold mbind, Eff_bind, getProperty, deleteProperty. rewrite Ho. simpl.
    destruct (JsObj.get cur o) as [asset|] eqn:Hget.
    + erewrite IH; [|done|].
      2:{ simpl. rewrite lookup_alter_eq, Ho. done. }
      simpl. rewrite omap_get_delete by done.
      rewrite filter_keys_notin_cons, <- app_assoc. simpl. do 2 f_equal.
      apply map_eq. intros l. destruct (decide (l = assetById)) as [->|].
      * by rewrite !lookup_insert_eq.
      * rewrite !lookup_insert_ne by done. by rewrite lookup_alter_ne.
    + rewrite (IH acc h o) by done. do 3 f_equal.
      rewrite <- filter_keys_notin_cons.
      rewrite JsObjFacts.delete_notin; [done|].
      by apply JsObjFacts.get_None_keys.
Qed.

(** C8. Market-cap ordering. Given the asset map and a market-data map
    (each with distinct keys, as objects have), the selector returns
    first the records found under the market-data keys, in the
    iteration order of the market-data map, then all remaining records
    in ascending lexicographic order of [(name, symbol)]; and every object
    that was in the store, the two inputs among them, is left as it
    was. *)
Theorem selectAssetsByMarketCap_order
    h (assetsByIdOriginal marketData : loc)
    (assets : list (string * Asset)) (md : list (string * MarketData)) :
  assetObjects h !! assetsByIdOriginal = Some assets →
  marketObjects h !! marketData = Some md →
  JsObj.wf md →
  ∃ remaining h',
    selectAssetsByMarketCap assetsByIdOriginal (Some marketData) h
      = (omap (λ k, JsObj.get k assets) (JsObj.keys md) ++ remaining, h') ∧
    StronglySorted name_symbol_le remaining ∧
    remaining ≡ₚ
      JsObj.values (filter (λ kv, kv.1 ∉ JsObj.keys md) assets) ∧
    (∀ l o, assetObjects h !! l = Some o → assetObjects h' !! l = Some o) ∧
    marketObjects h' = marketObjects h.
Proof.
  intros Hassets Hmd Hwf.
  set (l' := fresh (dom (assetObjects h))).
  assert (Hfresh : assetObjects h !! l' = None).
  { apply not_elem_of_dom. apply is_fresh. }
  unfold selectAssetsByMarketCap, mbind, Eff_bind, cloneDeep, Object_keys,
    Object_values, mret, Eff_ret.
  rewrite Hassets. simpl. rewrite Hmd. simpl.
  erewrite reduce_byMarketCap_spec; [|done|].
  2:{ simpl. apply lookup_insert_eq. }
  simpl. rewrite lookup_insert_eq. simpl.
  eexists _, _. split_and!; [reflexivity | | | | done].
  - apply sortBy_name_symbol_StronglySorted.
  - apply sortBy_name_symbol_Permutation.
  - intros l o Hl. simpl. fold l'.
    rewrite lookup_insert_ne; [by rewrite lookup_insert_ne by congruence|].
    congruence.
Qed.

(** Without market data the selector returns all records in ascending
    order of [(name, symbol)], and writes nothing but its working copy. *)
Lemma selectAssetsByMarketCap_no_marketData
    h (assetsByIdOriginal : loc) (assets : list (string * Asset)) :
  assetObjects h !! assetsByIdOriginal = Some assets →
  ∃ h',
    selectAssetsByMarketCap assetsByIdOriginal None h
      = (sortBy_name_symbol (JsObj.values assets), h') ∧
    (∀ l o, assetObjects h !! l = Some o → assetObjects h' !! l = Some o) ∧
    marketObjects h' = marketObjects h.
Proof.
  intros Hassets.
  assert (Hfresh : assetObjects h !! fresh (dom (assetObjects h)) = None).
  { apply not_elem_of_dom. apply is_fresh. }
  unfold selectAssetsByMarketCap, mbind, Eff_bind, cloneDeep, Object_values,
    mret, Eff_ret.
  rewrite Hassets. simpl. rewrite lookup_insert_eq. simpl.
  eexists. split_and!; [reflexivity | | done].
  intros l o Hl. simpl. rewrite lookup_insert_ne; [done | congruence].
Qed.

End selector.

(** ** Bulk description query *)
Section descriptions.
Variable service_description : option Asset → Settled string.
Implicit Types (assetIds : list CAIP19) (state : AssetsState).

Lemma set_description_twice d d' a :
  set_description d (set_description d' a) = set_description d a.
Proof. done. Qed.

(** While responses are being recorded the working copy holds, under
    each identifier, the original record or that record with its
    description; the requests were all made on the original records. *)
Lemma record_descriptions_spec orig assetIds cur :
  (∀ id, id ∈ assetIds →
     is_Some (JsObj.get id orig) ∨
     service_description (JsObj.get id orig) = rejected) →
  (∀ id, JsObj.get id cur = JsObj.get id orig ∨
     ∃ a d, JsObj.get id orig = Some a ∧
            service_description (Some a) = fulfilled d ∧
            JsObj.get id cur = Some (set_description d a)) →
  ∃ r,
    record_descriptions assetIds
      ((λ id, service_description (JsObj.get id orig)) <$> assetIds) cur
      = Some r ∧
    JsObj.keys r = JsObj.keys cur ∧
    (∀ id a d, id ∈ assetIds → JsObj.get id orig = Some a →
       service_description (Some a) = fulfilled d →
       JsObj.get id r = Some (set_description d a)) ∧
    (∀ id, JsObj.get id r = JsObj.get id cur ∨
       (id ∈ assetIds ∧ ∃ a d, JsObj.get id orig = Some a ∧
          service_description (Some a) = fulfilled d ∧
          JsObj.get id r = Some (set_description d a))).
Proof.
  revert cur. induction assetIds as [|id0 assetIds IH]; intros cur Hin Hinv.
  - exists cur. split_and!; [done | done | | by left].
    intros id a d Hid. by apply elem_of_nil in Hid.
  - assert (Hin' : ∀ id, id ∈ assetIds →
              is_Some (JsObj.get id orig) ∨
              service_description (JsObj.get id orig) = rejected).
    { intros id Hid. apply Hin. by right. }
    csimpl.
    destruct (service_description (JsObj.get id0 orig)) as [d0|] eqn:Hsvc.
    + destruct (Hin id0) as [[a0 Ha0]|Hrej]; [left | | congruence].
      rewrite Ha0 in Hsvc.
      assert (∃ a', JsObj.get id0 cur = Some a' ∧
                    set_description d0 a' = set_description d0 a0)
        as (a' & Hcur & Ha').
      { destruct (Hinv id0) as [Heq|(a & d & Ha & Hd & Heq)].
        - exists a0. by rewrite Heq.
        - exists (set_description d a). split; [done|].
          rewrite set_description_twice. congruence. }
      rewrite Hcur, Ha'.
      destruct (IH (JsObj.set id0 (set_description d0 a0) cur) Hin')
        as (r & Hr & Hkeys & Hful & Hother).
      { intros id. destruct (decide (id = id0)) as [->|Hne].
        - right. exists a0, d0. by rewrite JsObjFacts.get_set_eq.
        - destruct (Hinv id) as [Heq|(a & d & Ha & Hd & Heq)].
          + left. by rewrite JsObjFacts.get_set_ne.
          + right. exists a, d. by rewrite JsObjFacts.get_set_ne. }
      assert (Hid0 : JsObj.get id0 r = Some (set_description d0 a0)).
      { destruct (Hother id0) as [Heq|(_ & a & d & Ha & Hd & Heq)].
        - by rewrite Heq, JsObjFacts.get_set_eq.
        - rewrite Heq. congruence. }
      exists r. split_and!; [done | | |].
      * rewrite Hkeys. apply JsObjFacts.keys_set_in.
        by eapply JsObjFacts.get_Some_keys.
      * intros id a d Hid Ha Hd.
        apply elem_of_cons in Hid as [->|Hid]; [|by eapply Hful].
        rewrite Hid0. congruence.
      * intros id. destruct (decide (id = id0)) as [->|Hne].
        -- right. split; [left|]. by exists a0, d0.
        -- destruct (Hother id) as [Heq|(Hid & Hrest)].
           ++ left. by rewrite Heq, JsObjFacts.get_set_ne.
           ++ right. split; [by right | done].
    + destruct (IH cur Hin' Hinv) as (r & Hr & Hkeys & Hful & Hother).
      exists r. split_and!; [done | done | |].
      * intros id a d Hid Ha Hd.
        apply elem_of_cons in Hid as [->|Hid]; [|by eapply Hful].
        rewrite Ha in Hsvc. congruence.
      * intros id. destruct (Hother id) as [Heq|(Hid & Hrest)]; [by left|].
        right. split; [by right | done].
Qed.

Lemma get_spread_same_keys {V} k (o src : list (string * V)) :
  JsObj.wf src → JsObj.keys src = JsObj.keys o →
  JsObj.get k (JsObj.spread o src) = JsObj.get k src.
Proof.
  intros Hwf Hkeys. destruct (JsObj.get k src) as [v|] eqn:Hget.
  - by apply JsObjFacts.get_spread_wf, JsObjFacts.get_elem_of.
  - apply JsObjFacts.get_None_keys in Hget as Hnotin.
    rewrite JsObjFacts.get_spread_notin by done.
    apply JsObjFacts.get_None_keys. by rewrite <- Hkeys.
Qed.

Lemma keys_spread_same_keys {V} (o src : list (string * V)) :
  (∀ k, k ∈ JsObj.keys src → k ∈ JsObj.keys o) →
  JsObj.keys (JsObj.spread o src) = JsObj.keys o.
Proof.
  revert o. induction src as [|[k v] src IH]; intros o Hsub; [done|].
  rewrite JsObjFacts.spread_cons, IH.
  - apply JsObjFacts.keys_set_in, Hsub. unfold JsObj.keys. csimpl. left.
  - intros k' Hk'. apply JsObjFacts.elem_of_keys_set. right.
    apply Hsub. unfold JsObj.keys. csimpl. by right.
Qed.

End descriptions.

(** Market-cap ordering on the sample store: bitcoin is ranked first,
    ethereum second, fox has no market data. *)
Lemma selectAssetsByMarketCap_order_witness :
  (selectAssetsByMarketCap 1%positive (Some 1%positive) Sample.store).1
    = [Sample.btc; Sample.eth; Sample.fox] ∧
  ∃ remaining h',
    selectAssetsByMarketCap 1%positive (Some 1%positive) Sample.store
      = (omap (λ k, JsObj.get k (byId Sample.cache))
           (JsObj.keys Sample.marketData) ++ remaining, h') ∧
    StronglySorted name_symbol_le remaining ∧
    remaining ≡ₚ
      JsObj.values
        (filter (λ kv, kv.1 ∉ JsObj.keys Sample.marketData)
           (byId Sample.cache)) ∧
    (∀ l o, assetObjects Sample.store !! l = Some o →
            assetObjects h' !! l = Some o) ∧
    marketObjects h' = marketObjects Sample.store.
Proof.
  split; [reflexivity|].
  apply (selectAssetsByMarketCap_order Sample.store 1%positive 1%positive
           (byId Sample.cache) Sample.marketData).
  - reflexivity.
  - reflexivity.
  - unfold JsObj.wf. compute_done.
Defined.

(** ** Exact decimal numbers *)
Section bignumber.
Import BigNumber.

Lemma ten_nonzero : ten ≠ 0%Qc.
Proof. intros H. apply (f_equal this) in H. discriminate H. Qed.

Lemma ten_pow_nonzero (p : nat) : (ten ^ p)%Qc ≠ 0%Qc.
Proof.
  induction p as [|p IH]; simpl.
  - intros H. apply (f_equal this) in H. discriminate H.
  - intros H. apply Qcmult_integral in H as [H|H]; [|done].
    by apply ten_nonzero.
Qed.

(** Dividing by [`1e+${p}`] is exact. *)
Lemma div_of_1e (q : Qc) (p : nat) :
  div (Finite q) (of_1e (Some p)) = Finite (q / ten ^ p)%Qc.
Proof. simpl. by rewrite decide_False by apply ten_pow_nonzero. Qed.

Lemma div_NaN (x : t) : div x NaN = NaN.
Proof. by destruct x. Qed.

Lemma times_NaN_l (x : t) : times NaN x = NaN.
Proof. done. Qed.

Lemma times_NaN_r (x : t) : times x NaN = NaN.
Proof. by destruct x. Qed.

Lemma bnOrZero_Finite (n : Value) : ∃ q, bnOrZero n = Finite q.
Proof. destruct n as [[| |q]|]; simpl; eauto. Qed.

Lemma toString_zero `{Format} : toString zero = "0".
Proof. unfold toString, zero. by rewrite decide_True. Qed.
End bignumber.

(** ** Vault balances *)

(** C1. Fiat amount. For a vault whose vault-token asset record is in the
    catalog with precision [p], with raw balance [b], raw price per share
    [s] and underlying market price [m], the fiat amount is exactly
    [(b / 10^p) * (s / 10^p) * m]: no rounding and no [NaN]. *)
Theorem makeVaultFiatAmount_exact
    (assets : list (string * Asset)) (marketData_byId : list (string * MarketData))
    (vault : EarnVault.t) (asset : Asset) (market : MarketData) (b s m : Qc) :
  JsObj.get (EarnVault.vaultCaip19 vault) assets = Some asset →
  EarnVault.balance vault = Some (BigNumber.Finite b) →
  EarnVault.pricePerShare vault = BigNumber.Finite s →
  JsObj.get (EarnVault.tokenCaip19 vault) marketData_byId = Some market →
  price market = Some (BigNumber.Finite m) →
  makeVaultFiatAmount assets marketData_byId vault
  = BigNumber.Finite
      (b / BigNumber.ten ^ precision asset
       * (s / BigNumber.ten ^ precision asset) * m)%Qc.
Proof.
  intros Hasset Hb Hs Hmarket Hm. unfold makeVaultFiatAmount.
  rewrite Hasset, Hb, Hs, Hmarket. simpl. rewrite Hm. simpl.
  destruct (decide _) as [H0|_]; [by apply ten_pow_nonzero in H0 | done].
Qed.

(** The fiat amount scenario: precision 18, balance 1.0, price per share
    2.0, underlying price 10. *)
Lemma makeVaultFiatAmount_exact_witness :
  precision Sample.yvUSDC = 18 ∧
  EarnVault.balance Sample.held = Some (Sample.of_Z 1000000000000000000) ∧
  EarnVault.pricePerShare Sample.held = Sample.of_Z 2000000000000000000 ∧
  makeVaultFiatAmount
    [(caip19 Sample.yvUSDC, Sample.yvUSDC)] Sample.prices Sample.held
  = Sample.of_Z 20.
Proof.
  split_and!; [reflexivity..|].
  rewrite (makeVaultFiatAmount_exact
             [(caip19 Sample.yvUSDC, Sample.yvUSDC)] Sample.prices Sample.held
             Sample.yvUSDC {| price := Some (Sample.of_Z 10) |}
             (Q2Qc (inject_Z 1000000000000000000))
             (Q2Qc (inject_Z 2000000000000000000))
             (Q2Qc (inject_Z 10)));
    [|reflexivity..].
  unfold Sample.of_Z. f_equal.
Defined.

Section getYearnVaults.
Context `{Caip19Codec}.
Implicit Types (vaults : list SupportedYearnVault.t) (balances : Balances)
  (yearn : option YearnVaultApi.t) (acc r : list (string * EarnVault.t)).

(** Every entry of the result was in the accumulator or was made from a
    definition whose vault token the wallet holds. *)
Lemma getYearnVaults_from_entries vaults balances yearn acc r :
  getYearnVaults_from vaults balances yearn acc = fulfilled r →
  ∀ addr ev, JsObj.get addr r = Some ev →
    JsObj.get addr acc = Some ev ∨
    ∃ vault account pps,
      vault ∈ vaults ∧
      addr = SupportedYearnVault.vaultAddress vault ∧
      JsObj.get (vaultCaip19_of vault) balances = Some account ∧
      await_pricePerShare yearn addr = fulfilled pps ∧
      EarnVault.vaultAddress ev = addr ∧
      EarnVault.vaultCaip19 ev = vaultCaip19_of vault ∧
      EarnVault.tokenCaip19 ev = tokenCaip19_of vault ∧
      EarnVault.balance ev = Account.balance account ∧
      EarnVault.pricePerShare ev = bnOrZero pps.
Proof.
  revert acc. induction vaults as [|vault vaults IH]; intros acc Hrun addr ev Hev.
  - simpl in Hrun. injection Hrun as <-. by left.
  - simpl in Hrun.
    destruct (JsObj.get (vaultCaip19_of vault) balances) as [account|] eqn:Hbal.
    + destruct (await_pricePerShare yearn _) as [pps|] eqn:Hpps; [|done].
      destruct (IH _ Hrun addr ev Hev) as [Hacc|(v & a & p & Hv & Hrest)].
      * destruct (decide (SupportedYearnVault.vaultAddress vault = addr))
          as [<-|Hne].
        -- rewrite JsObjFacts.get_set_eq in Hacc. injection Hacc as <-.
           right. exists vault, account, pps. split_and!; try done. left.
        -- rewrite JsObjFacts.get_set_ne in Hacc by done. by left.
      * right. exists v, a, p. split; [by right | done].
    + destruct (IH _ Hrun addr ev Hev) as [Hacc|(v & a & p & Hv & Hrest)].
      * by left.
      * right. exists v, a, p. split; [by right | done].
Qed.

(** An address stays in the result once it is there, and the address of
    every held definition gets there. *)
Lemma getYearnVaults_from_is_Some vaults balances yearn acc r addr :
  getYearnVaults_from vaults balances yearn acc = fulfilled r →
  is_Some (JsObj.get addr acc) ∨
    (∃ vault, vault ∈ vaults ∧
       SupportedYearnVault.vaultAddress vault = addr ∧
       is_Some (JsObj.get (vaultCaip19_of vault) balances)) →
  is_Some (JsObj.get addr r).
Proof.
  revert acc. induction vaults as [|vault vaults IH]; intros acc Hrun Hin.
  - simpl in Hrun. injection Hrun as <-.
    destruct Hin as [?|(v & Hv & _)]; [done|]. by apply elem_of_nil in Hv.
  - simpl in Hrun.
    destruct (JsObj.get (vaultCaip19_of vault) balances) as [account|] eqn:Hbal.
    + destruct (await_pricePerShare yearn _) as [pps|] eqn:Hpps; [|done].
      apply (IH _ Hrun).
      destruct Hin as [Hacc|(v & Hv & Haddr & Hheld)].
      * left. destruct (decide (SupportedYearnVault.vaultAddress vault = addr))
          as [<-|Hne].
        -- rewrite JsObjFacts.get_set_eq. eauto.
        -- by rewrite JsObjFacts.get_set_ne.
      * apply elem_of_cons in Hv as [->|Hv].
        -- left. rewrite <- Haddr, JsObjFacts.get_set_eq. eauto.
        -- right. eauto.
    + apply (IH _ Hrun).
      destruct Hin as [Hacc|(v & Hv & Haddr & Hheld)]; [by left|].
      apply elem_of_cons in Hv as [->|Hv].
      * rewrite Hbal in Hheld. by destruct Hheld.
      * right. eauto.
Qed.

(** The loop resolves when no fetch for a held definition rejects. *)
Lemma getYearnVaults_from_fulfilled vaults balances yearn acc :
  (∀ vault, vault ∈ vaults →
     is_Some (JsObj.get (vaultCaip19_of vault) balances) →
     await_pricePerShare yearn (SupportedYearnVault.vaultAddress vault)
       ≠ rejected) →
  ∃ r, getYearnVaults_from vaults balances yearn acc = fulfilled r.
Proof.
  revert acc. induction vaults as [|vault vaults IH]; intros acc Hok.
  - by exists acc.
  - simpl.
    assert (Hok' : ∀ v, v ∈ vaults →
       is_Some (JsObj.get (vaultCaip19_of v) balances) →
       await_pricePerShare yearn (SupportedYearnVault.vaultAddress v)
         ≠ rejected).
    { intros v Hv. apply Hok. by right. }
    destruct (JsObj.get (vaultCaip19_of vault) balances) as [account|] eqn:Hbal.
    + destruct (await_pricePerShare yearn _) as [pps|] eqn:Hpps.
      * by apply IH.
      * exfalso. eapply (Hok vault); [left | by rewrite Hbal | done].
    + by apply IH.
Qed.


Lemma getYearnVaults_from_wf vaults balances yearn acc r :
  getYearnVaults_from vaults balances yearn acc = fulfilled r →
  JsObj.wf acc → JsObj.wf r.
Proof.
  revert acc. induction vaults as [|vault vaults IH]; intros acc Hrun Hwf.
  - simpl in Hrun. by injection Hrun as <-.
  - simpl in Hrun.
    destruct (JsObj.get (vaultCaip19_of vault) balances); [|by eapply IH].
    destruct (await_pricePerShare yearn _); [|done].
    eapply IH; [done|]. by apply JsObjFacts.wf_set.
Qed.
End getYearnVaults.

(** C4. Vault exclusion. Every entry of the computed vaults carries the
    vault-token identifier of a balance entry of the wallet. So when the
    wallet has no balance entry for the vault-token identifier of a
    definition, no entry carries that identifier; and nothing is stored
    under the definition's vault address, provided the definitions that
    share this address are on the same chain (as they are when addresses
    in the list are distinct). *)
Theorem getYearnVaults_excludes_unheld `{Caip19Codec} `{VaultConstants}
    (balances : Balances) (yearn : option YearnVaultApi.t)
    (vault : SupportedYearnVault.t) (vaults : list (string * EarnVault.t)) :
  vault ∈ SUPPORTED_VAULTS →
  JsObj.get (vaultCaip19_of vault) balances = None →
  getYearnVaults balances yearn = fulfilled vaults →
  (∀ addr ev, JsObj.get addr vaults = Some ev →
     is_Some (JsObj.get (EarnVault.vaultCaip19 ev) balances)) ∧
  (∀ addr ev, JsObj.get addr vaults = Some ev →
     EarnVault.vaultCaip19 ev ≠ vaultCaip19_of vault) ∧
  ((∀ v, v ∈ SUPPORTED_VAULTS →
      SupportedYearnVault.vaultAddress v = SupportedYearnVault.vaultAddress vault →
      SupportedYearnVault.chain v = SupportedYearnVault.chain vault) →
   JsObj.get (SupportedYearnVault.vaultAddress vault) vaults = None).
Proof.
  intros _ Hbal Hrun.
  assert (Hheld : ∀ addr ev, JsObj.get addr vaults = Some ev →
            is_Some (JsObj.get (EarnVault.vaultCaip19 ev) balances)).
  { intros addr ev Hev.
    destruct (getYearnVaults_from_entries _ _ _ _ _ Hrun addr ev Hev)
      as [Hnil|(v & a & p & _ & _ & Hbalv & _ & _ & Hcaip & _)]; [done|].
    rewrite Hcaip, Hbalv. by eexists. }
  split_and!.
  - exact Hheld.
  - intros addr ev Hev Heq. apply Hheld in Hev.
    rewrite Heq, Hbal in Hev. by destruct Hev.
  - intros Hchain.
    destruct (JsObj.get _ vaults) as [ev|] eqn:Hev; [|done]. exfalso.
    destruct (getYearnVaults_from_entries _ _ _ _ _ Hrun _ ev Hev)
      as [Hnil|(v & a & p & Hv & Haddr & Hbalv & _)]; [done|].
    assert (Hcaip : vaultCaip19_of v = vaultCaip19_of vault).
    { unfold vaultCaip19_of. by rewrite <- Haddr, (Hchain v Hv). }
    rewrite Hcaip, Hbal in Hbalv. done.
Qed.

(** A wallet that holds the first vault token only: the second vault is
    not in the result. *)
Lemma getYearnVaults_excludes_unheld_witness :
  let vaults :=
    [("0x5f18",
      {| EarnVault.chain := Ethereum;
         EarnVault.vaultAddress := "0x5f18";
         EarnVault.tokenAddress := "0xa0b8";
         EarnVault.balance := Some (Sample.of_Z 1000000000000000000);
         EarnVault.vaultCaip19 := "eip155:1/erc20:0x5f18";
         EarnVault.tokenCaip19 := "eip155:1/erc20:0xa0b8";
         EarnVault.pricePerShare := Sample.of_Z 2000000000000000000 |})] in
  @getYearnVaults Sample.codec Sample.constants Sample.balances_usdc
    (Some Sample.yearn_failing) = fulfilled vaults ∧
  (∀ addr ev, JsObj.get addr vaults = Some ev →
     EarnVault.vaultCaip19 ev ≠ @vaultCaip19_of Sample.codec Sample.daiVault) ∧
  JsObj.get (SupportedYearnVault.vaultAddress Sample.daiVault) vaults = None.
Proof.
  intros vaults.
  assert (Hrun : @getYearnVaults Sample.codec Sample.constants
                   Sample.balances_usdc (Some Sample.yearn_failing)
                 = fulfilled vaults) by reflexivity.
  destruct (@getYearnVaults_excludes_unheld Sample.codec Sample.constants
              Sample.balances_usdc (Some Sample.yearn_failing)
              Sample.daiVault vaults) as (_ & Hno & Hkey).
  - change (Sample.daiVault ∈ [Sample.usdcVault; Sample.daiVault]).
    right. left.
  - reflexivity.
  - exact Hrun.
  - split_and!; [exact Hrun | exact Hno |].
    apply Hkey. intros v Hv _.
    change (v ∈ [Sample.usdcVault; Sample.daiVault]) in Hv.
    repeat (apply elem_of_cons in Hv as [->|Hv]); [done..|].
    by apply elem_of_nil in Hv.
Defined.

Section mergedVaults.
Context `{BigNumber.Format}.

Lemma set_fresh {V} k (v : V) (o : list (string * V)) :
  k ∉ JsObj.keys o → JsObj.set k v o = o ++ [(k, v)].
Proof.
  unfold JsObj.keys. induction o as [|[k' v'] o IH]; csimpl; [done|].
  rewrite not_elem_of_cons. intros [Hne Hin].
  rewrite decide_False by done. by rewrite IH.
Qed.

(** Assigning the entries of an object with distinct keys, one by one,
    onto an object that has none of them appends them in order. *)
Lemma foldl_set_fresh {A B} (f : string → A → B)
    (src : list (string * A)) (acc : list (string * B)) :
  NoDup (JsObj.keys acc ++ JsObj.keys src) →
  foldl (λ acc entry, let '(k, v) := entry in JsObj.set k (f k v) acc)
    acc src
  = acc ++ ((λ entry, (entry.1, f entry.1 entry.2)) <$> src).
Proof.
  revert acc. unfold JsObj.keys.
  induction src as [|[k v] src IH]; intros acc Hnd; csimpl.
  - by rewrite app_nil_r.
  - assert (Hk : k ∉ acc.*1).
    { apply NoDup_app in Hnd as (_ & Hdisj & _).
      intros Hk. apply (Hdisj k Hk). left. }
    rewrite set_fresh by done. rewrite IH.
    + by rewrite <- app_assoc.
    + rewrite fmap_app. csimpl. by rewrite <- app_assoc.
Qed.

Lemma mergedVaults_entries assets marketData_byId yearn
    (vaults : list (string * EarnVault.t)) :
  JsObj.wf vaults →
  mergedVaults assets marketData_byId yearn vaults
  = (λ entry,
       (entry.1, mergedVault assets marketData_byId yearn entry.1 entry.2))
    <$> vaults.
Proof.
  intros Hwf. unfold mergedVaults, JsObj.entries.
  by rewrite (foldl_set_fresh (mergedVault assets marketData_byId yearn)).
Qed.

Lemma get_fmap_entries {A B} (f : string → A → B) k
    (o : list (string * A)) :
  JsObj.get k ((λ entry, (entry.1, f entry.1 entry.2)) <$> o)
  = f k <$> JsObj.get k o.
Proof.
  induction o as [|[k' v'] o IH]; csimpl; [done|].
  destruct (decide (k' = k)) as [->|]; [done | exact IH].
Qed.

Lemma keys_fmap_entries {A B} (f : string → A → B) (o : list (string * A)) :
  JsObj.keys ((λ entry, (entry.1, f entry.1 entry.2)) <$> o) = JsObj.keys o.
Proof.
  unfold JsObj.keys. induction o as [|[k' v'] o IH]; csimpl; [done|].
  by rewrite IH.
Qed.

(** A vault whose vault-token asset record is missing has fiat amount
    [NaN]. *)
Lemma makeVaultFiatAmount_no_asset assets marketData_byId vault :
  JsObj.get (EarnVault.vaultCaip19 vault) assets = None →
  makeVaultFiatAmount assets marketData_byId vault = BigNumber.NaN.
Proof.
  intros Hnone. unfold makeVaultFiatAmount. rewrite Hnone. simpl.
  rewrite !div_NaN. done.
Qed.


(** C10. Merged vault view. The merged view has the keys of the computed
    vaults, in the same order, and under each of them a record made from
    that vault. When the catalog has nothing under the vault address,
    [cryptoAmount] is the string ["NaN"]; when it has nothing under the
    vault-token identifier, [fiatAmount] is the string ["NaN"]. *)
Theorem mergedVaults_keeps_every_vault assets marketData_byId yearn
    (vaults : list (string * EarnVault.t)) :
  JsObj.wf vaults →
  JsObj.keys (mergedVaults assets marketData_byId yearn vaults)
    = JsObj.keys vaults ∧
  ∀ vaultAddress vault,
    JsObj.get vaultAddress vaults = Some vault →
    ∃ merged,
      JsObj.get vaultAddress
        (mergedVaults assets marketData_byId yearn vaults) = Some merged ∧
      MergedEarnVault.vault merged = vault ∧
      (JsObj.get vaultAddress assets = None →
         MergedEarnVault.cryptoAmount merged = "NaN") ∧
      (JsObj.get (EarnVault.vaultCaip19 vault) assets = None →
         MergedEarnVault.fiatAmount merged = "NaN").
Proof.
  intros Hwf. rewrite mergedVaults_entries by done. split.
  - apply keys_fmap_entries.
  - intros vaultAddress vault Hget.
    rewrite (get_fmap_entries (mergedVault assets marketData_byId yearn)).
    rewrite Hget. eexists. split; [reflexivity|]. simpl. split_and!; [done| |].
    + intros ->. simpl. by rewrite div_NaN.
    + intros Hnone. by rewrite makeVaultFiatAmount_no_asset.
Qed.

End mergedVaults.

(** A held vault merged against an empty catalog. *)
Lemma mergedVaults_keeps_every_vault_witness :
  let merged :=
    @mergedVaults Sample.notation [] Sample.prices (Some Sample.yearn_silent)
      [("0x5f18", Sample.held)] in
  JsObj.keys merged = ["0x5f18"] ∧
  ∃ m, JsObj.get "0x5f18" merged = Some m ∧
       MergedEarnVault.vault m = Sample.held ∧
       MergedEarnVault.cryptoAmount m = "NaN" ∧
       MergedEarnVault.fiatAmount m = "NaN".
Proof.
  intros merged.
  destruct (@mergedVaults_keeps_every_vault Sample.notation
              [] Sample.prices (Some Sample.yearn_silent)
              [("0x5f18", Sample.held)]) as [Hkeys Hall].
  - unfold JsObj.wf. compute_done.
  - split; [exact Hkeys|].
    destruct (Hall "0x5f18" Sample.held) as (m & Hm & Hv & Hc & Hf);
      [reflexivity|].
    exists m. split_and!; [exact Hm | exact Hv | by apply Hc | by apply Hf].
Defined.




(* ===================================================================== *)
(** * Further properties of the slice, the selectors and the hook *)
(* ===================================================================== *)

(** ** More on objects and insertion-ordered sets *)
Section more_objects.
Context {V : Type}.
Implicit Types (o src : list (string * V)) (k : string) (v : V).

Lemma keys_set_Set_add k v o :
  JsObj.keys (JsObj.set k v o) = Set_add (JsObj.keys o) k.
Proof.
  unfold Set_add. case_decide.
  - by apply JsObjFacts.keys_set_in.
  - by apply JsObjFacts.keys_set_notin.
Qed.

(** The keys after a spread: those of the target, then the new ones in
    order of first appearance. *)
Lemma keys_spread_Set_add o src :
  JsObj.keys (JsObj.spread o src) = foldl Set_add (JsObj.keys o) (JsObj.keys src).
Proof.
  revert o. induction src as [|[k v] src IH]; intros o; [done|].
  rewrite JsObjFacts.spread_cons, IH, keys_set_Set_add. done.
Qed.

(** Spreading properties that the target already has, with the same
    values, changes nothing. *)
Lemma spread_absorb o src :
  (∀ k v, (k, v) ∈ src → JsObj.get k o = Some v) → JsObj.spread o src = o.
Proof.
  induction src as [|[k v] src IH]; intros Hsrc; [done|].
  rewrite JsObjFacts.spread_cons, JsObjFacts.set_id.
  - apply IH. intros k' v' Hin. apply Hsrc. by right.
  - apply Hsrc. left.
Qed.

Lemma spread_self o : JsObj.wf o → JsObj.spread o o = o.
Proof.
  intros Hwf. apply spread_absorb. intros k v Hin.
  by apply JsObjFacts.elem_of_get.
Qed.

Lemma keys_delete k o :
  JsObj.keys (JsObj.delete k o) = filter (λ k', k' ≠ k) (JsObj.keys o).
Proof.
  unfold JsObj.keys. induction o as [|[k' v'] o IH]; [done|]. csimpl.
  rewrite filter_cons. simpl. destruct (decide (k' = k)) as [->|Hne].
  - by rewrite decide_False by auto.
  - rewrite decide_True by done. csimpl. by rewrite IH.
Qed.

Lemma wf_delete k o : JsObj.wf o → JsObj.wf (JsObj.delete k o).
Proof. unfold JsObj.wf. rewrite keys_delete. apply NoDup_filter. Qed.

Lemma values_delete_Permutation k v o :
  JsObj.wf o → JsObj.get k o = Some v →
  JsObj.values o ≡ₚ v :: JsObj.values (JsObj.delete k o).
Proof.
  unfold JsObj.wf, JsObj.keys, JsObj.values.
  induction o as [|[k' v'] o IH]; [done|]. csimpl.
  rewrite NoDup_cons. intros [Hk' Hnd].
  destruct (decide (k' = k)) as [->|Hne].
  - intros [= ->]. rewrite JsObjFacts.delete_notin; done.
  - intros Hget. csimpl. rewrite (IH Hnd Hget). apply Permutation_swap.
Qed.
End more_objects.

Lemma foldl_Set_add_prefix (acc l : list string) :
  ∃ new, foldl Set_add acc l = acc ++ new ∧
         ∀ x, x ∈ new → x ∈ l ∧ x ∉ acc.
Proof.
  revert acc. induction l as [|y l IH]; intros acc; simpl.
  - exists []. split; [by rewrite app_nil_r|]. intros x Hx.
    by apply elem_of_nil in Hx.
  - unfold Set_add at 2. case_decide as Hy.
    + destruct (IH acc) as (new & -> & Hnew). exists new. split; [done|].
      intros x Hx. destruct (Hnew x Hx). split; [by right | done].
    + destruct (IH (acc ++ [y])) as (new & -> & Hnew). exists (y :: new).
      split; [by rewrite <- app_assoc|].
      intros x [->|Hx]%elem_of_cons; [split; [left | done]|].
      destruct (Hnew x Hx) as [Hl Hacc]. split; [by right|].
      intros Hin. apply Hacc, elem_of_app. by left.
Qed.

(** ** Catalog load *)

Lemma getAssets_fold (acc : AssetsState) (assetArray : list Asset) :
  foldl
    (λ acc cur,
       {| byId := JsObj.set (caip19 cur) cur (byId acc);
          ids := ids acc ++ [caip19 cur] |})
    acc assetArray
  = {| byId := JsObj.spread (byId acc) ((λ a, (caip19 a, a)) <$> assetArray);
       ids := ids acc ++ (caip19 <$> assetArray) |}.
Proof.
  revert acc. induction assetArray as [|a arr IH]; intros acc; csimpl.
  - rewrite app_nil_r. by destruct acc.
  - rewrite IH. simpl. rewrite JsObjFacts.spread_cons. simpl.
    by rewrite <- app_assoc.
Qed.

Lemma keys_pair_caip19 (assetArray : list Asset) :
  JsObj.keys ((λ a, (caip19 a, a)) <$> assetArray) = caip19 <$> assetArray.
Proof.
  unfold JsObj.keys. induction assetArray as [|a arr IH]; csimpl; [done|].
  by rewrite IH.
Qed.

(** X1. The data built by the catalog query: [ids] lists the identifier of
    every asset of the array, in order and with its repetitions; the keys
    of [byId] are these identifiers without the repetitions, in order of
    first appearance; so [ids] and the keys of [byId] hold the same
    identifiers. *)
Theorem getAssets_queryFn_shape (assetArray : list Asset) :
  ids (getAssets_queryFn assetArray) = caip19 <$> assetArray ∧
  JsObj.keys (byId (getAssets_queryFn assetArray))
    = Array_from_Set (caip19 <$> assetArray) ∧
  ids_match_byId (getAssets_queryFn assetArray).
Proof.
  unfold getAssets_queryFn. rewrite getAssets_fold. simpl.
  assert (Hkeys :
    JsObj.keys (JsObj.spread [] ((λ a, (caip19 a, a)) <$> assetArray))
    = Array_from_Set (caip19 <$> assetArray)).
  { by rewrite keys_spread_Set_add, keys_pair_caip19. }
  split_and!; [done | done |].
  intros k. simpl. rewrite Hkeys. apply elem_of_Array_from_Set.
Qed.

(** X2. Loading the catalog: when the identifiers of the array are
    distinct, every asset of the array is afterwards found under its own
    identifier, whatever the cache held there before, and its identifier is
    among the ids. *)
Theorem getAssets_lookup
    (assetArray : list Asset) (state : AssetsState) (a : Asset) :
  NoDup (caip19 <$> assetArray) → a ∈ assetArray →
  selectAssetByCAIP19 (getAssets assetArray state) (caip19 a) = Some a ∧
  caip19 a ∈ selectAssetIds (getAssets assetArray state).
Proof.
  intros Hnd Hin.
  unfold selectAssetByCAIP19, selectAssetIds, getAssets, setAssets,
    getAssets_queryFn.
  rewrite getAssets_fold. simpl.
  set (src := (λ a, (caip19 a, a)) <$> assetArray).
  assert (Hwf : JsObj.wf src).
  { unfold JsObj.wf, src. by rewrite keys_pair_caip19. }
  assert (Hsrc : (caip19 a, a) ∈ src).
  { apply list_elem_of_fmap. by exists a. }
  split.
  - apply JsObjFacts.get_spread_wf; [apply JsObjFacts.wf_spread, NoDup_nil_2|].
    apply JsObjFacts.get_elem_of. by apply JsObjFacts.get_spread_wf.
  - apply elem_of_Array_from_Set, elem_of_app. right.
    apply list_elem_of_fmap. by exists a.
Qed.

Lemma getAssets_lookup_witness :
  selectAssetByCAIP19
    (getAssets [Sample.eth; Sample.btc] (Sample.only Sample.fox))
    (caip19 Sample.btc) = Some Sample.btc ∧
  caip19 Sample.btc ∈
    selectAssetIds (getAssets [Sample.eth; Sample.btc] (Sample.only Sample.fox)).
Proof.
  apply (getAssets_lookup [Sample.eth; Sample.btc] (Sample.only Sample.fox)
           Sample.btc).
  - compute_done.
  - right. left.
Defined.

(** ** What the reducers keep *)

Lemma assets_reducer_grows (state : AssetsState) (a : AssetAction) :
  JsObj.keys (byId state) ⊆ JsObj.keys (byId (assets_reducer state a)) ∧
  ids state ⊆ ids (assets_reducer state a).
Proof.
  destruct a as [payload|arg payload|arg]; simpl.
  - split; intros k Hk.
    + apply JsObjFacts.elem_of_keys_spread. by left.
    + apply elem_of_Array_from_Set, elem_of_app. by left.
  - split; intros k Hk.
    + apply JsObjFacts.elem_of_keys_set. by right.
    + case_decide; [done|]. apply elem_of_app. by left.
  - done.
Qed.

Lemma dispatch_all_grows (state : AssetsState) (actions : list AssetAction) :
  JsObj.keys (byId state) ⊆ JsObj.keys (byId (dispatch_all state actions)) ∧
  ids state ⊆ ids (dispatch_all state actions).
Proof.
  unfold dispatch_all. revert state.
  induction actions as [|a actions IH]; intros state; simpl; [done|].
  destruct (assets_reducer_grows state a) as [Hk Hi].
  destruct (IH (assets_reducer state a)) as [Hk' Hi'].
  split; etransitivity; eauto.
Qed.

(** X3. Nothing is ever deleted: whatever actions are dispatched, from any
    state, every key of [byId] and every identifier of [ids] is still
    there afterwards. *)
Theorem dispatch_all_never_deletes
    (state : AssetsState) (actions : list AssetAction) :
  JsObj.keys (byId state) ⊆ JsObj.keys (byId (dispatch_all state actions)) ∧
  ids state ⊆ ids (dispatch_all state actions).
Proof. apply dispatch_all_grows. Qed.

(** X4. A fulfilled fetch stays: if [fetchAsset.fulfilled] for an
    identifier is among the dispatched actions, then at the end the
    identifier is in [ids] and a record is found under it, whatever was
    dispatched before and after. *)
Theorem fetched_asset_stays
    (state : AssetsState) (actions : list AssetAction)
    (assetCAIP19 : CAIP19) (payload : Asset) :
  FetchAssetFulfilled assetCAIP19 payload ∈ actions →
  assetCAIP19 ∈ selectAssetIds (dispatch_all state actions) ∧
  is_Some (selectAssetByCAIP19 (dispatch_all state actions) assetCAIP19).
Proof.
  intros Hin. apply list_elem_of_split in Hin as (before & after & ->).
  unfold dispatch_all, selectAssetIds, selectAssetByCAIP19.
  rewrite foldl_app. simpl.
  set (s := foldl assets_reducer state before).
  destruct (dispatch_all_grows (fetchAsset_fulfilled s assetCAIP19 payload)
              after) as [Hk Hi].
  split.
  - apply Hi. simpl. case_decide; [done|].
    apply elem_of_app. right. left.
  - apply JsObjFacts.keys_get, Hk. simpl.
    apply JsObjFacts.elem_of_keys_set. by left.
Qed.

Lemma fetched_asset_stays_witness :
  let actions :=
    [FetchAssetFulfilled (caip19 Sample.fox) Sample.fox;
     SetAssets (Sample.only Sample.eth);
     FetchAssetRejected (caip19 Sample.btc)] in
  caip19 Sample.fox ∈ selectAssetIds (dispatch_all initialState actions) ∧
  is_Some (selectAssetByCAIP19 (dispatch_all initialState actions)
             (caip19 Sample.fox)).
Proof.
  intros actions.
  apply (fetched_asset_stays initialState actions (caip19 Sample.fox)
           Sample.fox).
  left.
Defined.

(** X5. [ids] and [byId] stay in step: from the initial state, as long as
    every [setAssets] payload lists in its [ids] exactly the keys of its
    [byId] (as the data of the catalog query does), [ids] holds exactly the
    keys of [byId] after any sequence of actions. *)
Theorem dispatch_all_ids_match_byId (actions : list AssetAction) :
  Forall payload_ids_match_byId actions →
  ids_match_byId (dispatch_all initialState actions).
Proof.
  unfold dispatch_all.
  assert (H : ∀ s, ids_match_byId s → Forall payload_ids_match_byId actions →
                ids_match_byId (foldl assets_reducer s actions)).
  { induction actions as [|a actions IH]; intros s Hs Hall; simpl; [done|].
    apply Forall_cons in Hall as [Ha Hall]. apply IH; [|done].
    destruct a as [payload|arg payload|arg]; simpl in *.
    - intros k. simpl.
      rewrite JsObjFacts.elem_of_keys_spread, elem_of_Array_from_Set,
        elem_of_app, (Hs k), (Ha k). done.
    - intros k. simpl. rewrite JsObjFacts.elem_of_keys_set, (Hs k).
      case_decide as Harg.
      + split; [by intros [->|?] | by right].
      + rewrite elem_of_app, list_elem_of_singleton. tauto.
    - done. }
  intros Hall. apply H; [|done].
  intros k. simpl. unfold JsObj.keys. simpl. done.
Qed.

Lemma dispatch_all_ids_match_byId_witness :
  ids_match_byId
    (dispatch_all initialState
       [SetAssets (getAssets_queryFn [Sample.eth; Sample.btc]);
        FetchAssetFulfilled (caip19 Sample.fox) Sample.fox]).
Proof.
  apply dispatch_all_ids_match_byId.
  apply Forall_cons. split; [intros k; reflexivity|].
  apply Forall_cons. split; [exact I | apply Forall_nil_2].
Defined.

(** X6. Two fulfilled fetches of one identifier: the state is the one the
    later response alone would have given; the earlier response leaves no
    trace. *)
Theorem fetchAsset_fulfilled_last_wins
    (state : AssetsState) (assetCAIP19 : CAIP19) (earlier later : Asset) :
  fetchAsset_fulfilled
    (fetchAsset_fulfilled state assetCAIP19 earlier) assetCAIP19 later
  = fetchAsset_fulfilled state assetCAIP19 later.
Proof.
  unfold fetchAsset_fulfilled. simpl. f_equal.
  - apply JsObjFacts.set_set_eq.
  - destruct (decide (assetCAIP19 ∈ ids state)) as [Hin|Hin].
    + by rewrite decide_True.
    + rewrite decide_True; [done|]. apply elem_of_app. right. left.
Qed.

(** X7. Upsert at record granularity: after [setAssets], the record found
    under an identifier is the payload's when the payload has one (whole,
    not merged field by field), and the cache's former record otherwise. *)
Theorem setAssets_lookup (state payload : AssetsState) (k : CAIP19) :
  JsObj.wf (byId payload) →
  selectAssetByCAIP19 (setAssets state payload) k
  = match selectAssetByCAIP19 payload k with
    | Some a => Some a
    | None => selectAssetByCAIP19 state k
    end.
Proof.
  intros Hwf. unfold selectAssetByCAIP19, setAssets. simpl.
  destruct (JsObj.get k (byId payload)) as [a|] eqn:Hget.
  - by apply JsObjFacts.get_spread_wf, JsObjFacts.get_elem_of.
  - apply JsObjFacts.get_spread_notin. by apply JsObjFacts.get_None_keys.
Qed.

Lemma setAssets_lookup_witness :
  selectAssetByCAIP19
    (setAssets Sample.cache
       (Sample.only (set_description "Digital gold" Sample.btc)))
    (caip19 Sample.btc)
  = Some (set_description "Digital gold" Sample.btc) ∧
  selectAssetByCAIP19
    (setAssets Sample.cache
       (Sample.only (set_description "Digital gold" Sample.btc)))
    (caip19 Sample.eth)
  = Some Sample.eth.
Proof.
  split.
  - rewrite (setAssets_lookup Sample.cache
               (Sample.only (set_description "Digital gold" Sample.btc))
               (caip19 Sample.btc)); [reflexivity|].
    unfold JsObj.wf. compute_done.
  - rewrite (setAssets_lookup Sample.cache
               (Sample.only (set_description "Digital gold" Sample.btc))
               (caip19 Sample.eth)); [reflexivity|].
    unfold JsObj.wf. compute_done.
Defined.

(** X8. Existing entries keep their place: [setAssets] leaves the keys of
    [byId] and (for [ids] without repetition) the [ids] where they were,
    and adds what is new behind them. *)
Theorem setAssets_appends (state payload : AssetsState) :
  NoDup (ids state) →
  ∃ newKeys newIds,
    JsObj.keys (byId (setAssets state payload))
      = JsObj.keys (byId state) ++ newKeys ∧
    ids (setAssets state payload) = ids state ++ newIds ∧
    (∀ k, k ∈ newKeys →
       k ∈ JsObj.keys (byId payload) ∧ k ∉ JsObj.keys (byId state)) ∧
    (∀ k, k ∈ newIds → k ∈ ids payload ∧ k ∉ ids state).
Proof.
  intros Hnd. unfold setAssets. simpl.
  destruct (foldl_Set_add_prefix (JsObj.keys (byId state))
              (JsObj.keys (byId payload))) as (newKeys & HK & HnewK).
  destruct (foldl_Set_add_prefix (ids state) (ids payload))
    as (newIds & HI & HnewI).
  exists newKeys, newIds. split_and!; [| |done|done].
  - by rewrite keys_spread_Set_add.
  - by rewrite Array_from_Set_app, (Array_from_Set_NoDup _ Hnd).
Qed.

Lemma setAssets_appends_witness :
  ∃ newKeys newIds,
    JsObj.keys (byId (setAssets (Sample.only Sample.eth) Sample.cache))
      = JsObj.keys (byId (Sample.only Sample.eth)) ++ newKeys ∧
    ids (setAssets (Sample.only Sample.eth) Sample.cache)
      = ids (Sample.only Sample.eth) ++ newIds ∧
    (∀ k, k ∈ newKeys →
       k ∈ JsObj.keys (byId Sample.cache) ∧
       k ∉ JsObj.keys (byId (Sample.only Sample.eth))) ∧
    (∀ k, k ∈ newIds →
       k ∈ ids Sample.cache ∧ k ∉ ids (Sample.only Sample.eth)).
Proof.
  apply (setAssets_appends (Sample.only Sample.eth) Sample.cache).
  compute_done.
Defined.

(** ** Selecting by symbol *)

Lemma values_set_fresh {V} k (v : V) (o : list (string * V)) :
  k ∉ JsObj.keys o → JsObj.values (JsObj.set k v o) = JsObj.values o ++ [v].
Proof.
  intros Hk. rewrite set_fresh by done. unfold JsObj.values.
  by rewrite fmap_app.
Qed.

(** X9. [selectAssetBySymbol] returns the first record, in the iteration
    order of [byId], whose symbol is the one asked for, and nothing exactly
    when no record has that symbol. *)
Theorem selectAssetBySymbol_first (state : AssetsState) (symbol_ : string) :
  match selectAssetBySymbol state symbol_ with
  | Some asset =>
      symbol asset = symbol_ ∧
      ∃ before after,
        JsObj.values (byId state) = before ++ asset :: after ∧
        ∀ b, b ∈ before → symbol b ≠ symbol_
  | None => ∀ a, a ∈ JsObj.values (byId state) → symbol a ≠ symbol_
  end.
Proof.
  unfold selectAssetBySymbol.
  induction (JsObj.values (byId state)) as [|a l IH]; simpl.
  - intros a Ha. by apply elem_of_nil in Ha.
  - case_bool_decide as Hsym.
    + split; [done|]. exists [], l. split; [done|].
      intros b Hb. by apply elem_of_nil in Hb.
    + destruct (find _ l) as [asset|].
      * destruct IH as (Hs & before & after & -> & Hbefore).
        split; [done|]. exists (a :: before), after. split; [done|].
        intros b [->|Hb]%elem_of_cons; [done | by apply Hbefore].
      * intros b [->|Hb]%elem_of_cons; [done | by apply IH].
Qed.

(** X10. A symbol keeps resolving to the same record when a record arrives
    under an identifier that is new to the cache, even one with the same
    symbol: the new record is last in iteration order. *)
Theorem selectAssetBySymbol_stable
    (state : AssetsState) (symbol_ : string) (asset : Asset)
    (assetCAIP19 : CAIP19) (payload : Asset) :
  selectAssetBySymbol state symbol_ = Some asset →
  assetCAIP19 ∉ JsObj.keys (byId state) →
  selectAssetBySymbol (fetchAsset_fulfilled state assetCAIP19 payload) symbol_
  = Some asset.
Proof.
  unfold selectAssetBySymbol, fetchAsset_fulfilled. simpl.
  intros Hfind Hnew. rewrite values_set_fresh by done.
  induction (JsObj.values (byId state)) as [|a l IH]; simpl in *; [done|].
  destruct (bool_decide (symbol a = symbol_)); [done | by apply IH].
Qed.

Lemma selectAssetBySymbol_stable_witness :
  selectAssetBySymbol
    (fetchAsset_fulfilled Sample.cache "eip155:1/erc20:0xwrapped"
       (set_description "Another asset with ticker ETH" Sample.eth))
    "ETH"
  = Some Sample.eth.
Proof.
  apply (selectAssetBySymbol_stable Sample.cache "ETH" Sample.eth).
  - reflexivity.
  - compute_done.
Defined.

(** ** More on the market-cap selector *)
Section selector_more.
Implicit Types (h : Store) (o : list (string * Asset)) (ks : list string).

(** The ranked records and the remaining records together are the records
    of the object, each once. *)
Lemma ranked_and_remaining_Permutation ks o :
  NoDup ks → JsObj.wf o →
  omap (λ k, JsObj.get k o) ks
    ++ JsObj.values (filter (λ kv, kv.1 ∉ ks) o)
  ≡ₚ JsObj.values o.
Proof.
  revert o. induction ks as [|k ks IH]; intros o Hnd Hwf.
  - simpl. by rewrite filter_keys_notin_nil.
  - apply NoDup_cons in Hnd as [Hk Hnd]. csimpl.
    rewrite <- filter_keys_notin_cons.
    rewrite <- (omap_get_delete k ks o Hk).
    destruct (JsObj.get k o) as [a|] eqn:Hget.
    + rewrite (values_delete_Permutation k a o Hwf Hget). simpl.
      constructor. apply IH; [done | by apply wf_delete].
    + rewrite JsObjFacts.delete_notin by (by apply JsObjFacts.get_None_keys).
      by apply IH.
Qed.

(** X11. The selector neither loses nor repeats a record: with market
    data, its result is a rearrangement of the records of the asset map. *)
Theorem selectAssetsByMarketCap_keeps_every_asset
    h (assetsByIdOriginal marketData : loc)
    (assets : list (string * Asset)) (md : list (string * MarketData)) :
  assetObjects h !! assetsByIdOriginal = Some assets →
  marketObjects h !! marketData = Some md →
  JsObj.wf assets → JsObj.wf md →
  (selectAssetsByMarketCap assetsByIdOriginal (Some marketData) h).1
  ≡ₚ JsObj.values assets.
Proof.
  intros Hassets Hmd Hwfa Hwfm.
  unfold selectAssetsByMarketCap, mbind, Eff_bind, cloneDeep, Object_keys,
    Object_values, mret, Eff_ret.
  rewrite Hassets. simpl. rewrite Hmd. simpl.
  erewrite reduce_byMarketCap_spec; [|done|].
  2:{ simpl. apply lookup_insert_eq. }
  simpl. rewrite lookup_insert_eq. simpl.
  rewrite sortBy_name_symbol_Permutation.
  by apply ranked_and_remaining_Permutation.
Qed.

Lemma selectAssetsByMarketCap_keeps_every_asset_witness :
  (selectAssetsByMarketCap 1%positive (Some 1%positive) Sample.store).1
  ≡ₚ JsObj.values (byId Sample.cache).
Proof.
  apply (selectAssetsByMarketCap_keeps_every_asset Sample.store
           1%positive 1%positive (byId Sample.cache) Sample.marketData).
  - reflexivity.
  - reflexivity.
  - unfold JsObj.wf. compute_done.
  - unfold JsObj.wf. compute_done.
Defined.

(** X12. Without market data the selector returns every record of the
    asset map, each once, in ascending order of [(name, symbol)], and
    leaves every object of the store as it was. *)
Theorem selectAssetsByMarketCap_without_marketData
    h (assetsByIdOriginal : loc) (assets : list (string * Asset)) :
  assetObjects h !! assetsByIdOriginal = Some assets →
  ∃ sorted h',
    selectAssetsByMarketCap assetsByIdOriginal None h = (sorted, h') ∧
    StronglySorted name_symbol_le sorted ∧
    sorted ≡ₚ JsObj.values assets ∧
    (∀ l o, assetObjects h !! l = Some o → assetObjects h' !! l = Some o) ∧
    marketObjects h' = marketObjects h.
Proof.
  intros Hassets.
  assert (Hfresh : assetObjects h !! fresh (dom (assetObjects h)) = None).
  { apply not_elem_of_dom. apply is_fresh. }
  unfold selectAssetsByMarketCap, mbind, Eff_bind, cloneDeep, Object_values,
    mret, Eff_ret.
  rewrite Hassets. simpl. rewrite lookup_insert_eq. simpl.
  eexists _, _. split_and!; [reflexivity | | | | done].
  - apply sortBy_name_symbol_StronglySorted.
  - apply sortBy_name_symbol_Permutation.
  - intros l o Hl. simpl. rewrite lookup_insert_ne; [done | congruence].
Qed.

Lemma selectAssetsByMarketCap_without_marketData_witness :
  (selectAssetsByMarketCap 1%positive None Sample.store).1
    = [Sample.btc; Sample.eth; Sample.fox] ∧
  ∃ sorted h',
    selectAssetsByMarketCap 1%positive None Sample.store = (sorted, h') ∧
    StronglySorted name_symbol_le sorted ∧
    sorted ≡ₚ JsObj.values (byId Sample.cache) ∧
    (∀ l o, assetObjects Sample.store !! l = Some o →
            assetObjects h' !! l = Some o) ∧
    marketObjects h' = marketObjects Sample.store.
Proof.
  split; [reflexivity|].
  apply (selectAssetsByMarketCap_without_marketData Sample.store 1%positive
           (byId Sample.cache)).
  reflexivity.
Defined.

(** Inserting keeps the records that were equal in [(name, symbol)] to the
    new one behind it. *)
Lemma sort_insert_head (a : Asset) (l : list Asset) :
  Forall (λ b, name_symbol_leb a b = true) l → sort_insert a l = a :: l.
Proof.
  destruct l as [|b l]; [done|]. intros Hall.
  apply Forall_cons in Hall as [Hb _]. simpl. by rewrite Hb.
Qed.

Lemma sortBy_name_symbol_sorted_id (l : list Asset) :
  StronglySorted name_symbol_le l → sortBy_name_symbol l = l.
Proof.
  induction 1 as [|a l Hl IH Ha]; [done|]. simpl. rewrite IH.
  apply sort_insert_head. eapply Forall_impl; [exact Ha|].
  intros b Hb. by apply name_symbol_leb_le.
Qed.

(** X13. Ties keep their place: when the records of the asset map are in
    ascending order of [(name, symbol)] already, the selector without
    market data returns them in the iteration order of the map, records
    that agree on name and symbol included. *)
Theorem selectAssetsByMarketCap_sorted_input
    h (assetsByIdOriginal : loc) (assets : list (string * Asset)) :
  assetObjects h !! assetsByIdOriginal = Some assets →
  StronglySorted name_symbol_le (JsObj.values assets) →
  (selectAssetsByMarketCap assetsByIdOriginal None h).1 = JsObj.values assets.
Proof.
  intros Hassets Hsorted.
  unfold selectAssetsByMarketCap, mbind, Eff_bind, cloneDeep, Object_values,
    mret, Eff_ret.
  rewrite Hassets. simpl. rewrite lookup_insert_eq. simpl.
  by apply sortBy_name_symbol_sorted_id.
Qed.

Lemma selectAssetsByMarketCap_sorted_input_witness :
  let assets :=
    [("a", Sample.btc); ("b", Sample.eth);
     ("c", set_description "again" Sample.eth); ("d", Sample.fox)] in
  (selectAssetsByMarketCap 1%positive None
     {| assetObjects := {[ 1%positive := assets ]}; marketObjects := ∅ |}).1
  = [Sample.btc; Sample.eth; set_description "again" Sample.eth; Sample.fox].
Proof.
  intros assets.
  apply (selectAssetsByMarketCap_sorted_input
           {| assetObjects := {[ 1%positive := assets ]}; marketObjects := ∅ |}
           1%positive assets).
  - reflexivity.
  - repeat (apply SSorted_cons;
      [|repeat (apply List.Forall_cons;
                [apply name_symbol_leb_le; reflexivity|]);
        apply List.Forall_nil]).
    apply SSorted_nil.
Defined.

End selector_more.

(** ** More on the bulk description query *)
Section descriptions_more.
Variable service_description : option Asset → Settled string.
Implicit Types (assetIds : list CAIP19) (state : AssetsState).

(** Recording fails as soon as a fulfilled response meets an identifier
    without a record. *)
Lemma record_descriptions_fails orig assetIds cur :
  (∀ id, JsObj.get id orig = None → JsObj.get id cur = None) →
  (∃ id d, id ∈ assetIds ∧ JsObj.get id orig = None ∧
           service_description None = fulfilled d) →
  record_descriptions assetIds
    ((λ id, service_description (JsObj.get id orig)) <$> assetIds) cur = None.
Proof.
  revert cur. induction assetIds as [|id0 assetIds IH]; intros cur Hinv Hbad.
  - destruct Hbad as (id & d & Hid & _). by apply elem_of_nil in Hid.
  - csimpl.
    destruct (service_description (JsObj.get id0 orig)) as [d0|] eqn:Hsvc.
    + destruct (JsObj.get id0 cur) as [a|] eqn:Hcur; [|done].
      apply IH.
      * intros id Hid. rewrite JsObjFacts.get_set_ne; [by apply Hinv|].
        intros <-. rewrite (Hinv _ Hid) in Hcur. done.
      * destruct Hbad as (id & d & Hid & Hnone & Hd).
        apply elem_of_cons in Hid as [->|Hid]; [|by exists id, d].
        rewrite (Hinv _ Hnone) in Hcur. done.
    + apply IH; [done|].
      destruct Hbad as (id & d & Hid & Hnone & Hd).
      apply elem_of_cons in Hid as [->|Hid]; [|by exists id, d].
      rewrite Hnone in Hsvc. congruence.
Qed.

(** X14. The bulk description query fails as a whole, and dispatches
    nothing, exactly when some requested identifier has no record in the
    state the query read and its description fetch is nevertheless
    fulfilled; rejected fetches never make it fail, and neither does what
    is dispatched in the meantime. *)
Theorem getAssetDescriptions_fails_iff assetIds state meanwhile :
  getAssetDescriptions service_description assetIds state meanwhile = None ↔
  ∃ id d, id ∈ assetIds ∧ JsObj.get id (byId state) = None ∧
          service_description None = fulfilled d.
Proof.
  unfold getAssetDescriptions, getAssetDescriptions_queryFn. simpl. split.
  - intros Hnone.
    destruct (decide (Exists (λ id, JsObj.get id (byId state) = None ∧
                is_Some (match service_description None with
                         | fulfilled d => Some d | rejected => None end))
                assetIds)) as [Hex|Hnex].
    + apply Exists_exists in Hex as (id & Hid & Hget & [d Hd]).
      exists id, d. split_and!; [done | done |].
      by destruct (service_description None) as [d'|]; simplify_eq.
    + exfalso.
      destruct (record_descriptions_spec service_description
                  (byId state) assetIds (byId state)) as (r & Hr & _).
      * intros id Hid.
        destruct (JsObj.get id (byId state)) as [a|] eqn:Hget; [left; eauto|].
        right. destruct (service_description None) as [d|] eqn:Hd; [|done].
        exfalso. apply Hnex, Exists_exists. exists id.
        split_and!; [done | done | by eexists].
      * by left.
      * by rewrite Hr in Hnone.
  - intros Hbad. by rewrite record_descriptions_fails.
Qed.

Lemma record_descriptions_all_rejected assetIds responses cur :
  Forall (λ res, res = rejected) responses →
  record_descriptions assetIds responses cur = Some cur.
Proof.
  revert responses. induction assetIds as [|id assetIds IH];
    intros [|res responses] Hall; try done.
  apply Forall_cons in Hall as [-> Hall]. simpl. by apply IH.
Qed.

Lemma dispatch_all_ids_NoDup_from state (actions : list AssetAction) :
  NoDup (ids state) → NoDup (ids (dispatch_all state actions)).
Proof.
  unfold dispatch_all. revert state.
  induction actions as [|a actions IH]; intros s Hs; simpl; [done|].
  apply IH. destruct a as [payload|arg payload|arg]; simpl.
  - apply NoDup_Array_from_Set.
  - case_decide; [done|].
    apply NoDup_app. split_and!; [done| |apply NoDup_singleton].
    by intros z Hz ->%list_elem_of_singleton.
  - done.
Qed.

(** What the dispatch of the query's data does to [ids]: nothing. *)
Lemma setAssets_stale_ids state (actions : list AssetAction) :
  NoDup (ids state) →
  Array_from_Set (ids (dispatch_all state actions) ++ ids state)
  = ids (dispatch_all state actions).
Proof.
  intros Hnd. rewrite Array_from_Set_app.
  rewrite Array_from_Set_NoDup by (by apply dispatch_all_ids_NoDup_from).
  apply foldl_Set_add_absorb. intros x Hx.
  by apply (dispatch_all_grows state actions).
Qed.

(** X15. When every description fetch is rejected, and so too when no
    identifier is requested, the query goes through and its dispatch
    leaves the cache exactly as it finds it, provided that no record of
    the state the query read was changed between that read and the
    dispatch (in particular when nothing was dispatched in between). *)
Theorem getAssetDescriptions_all_rejected assetIds state meanwhile :
  JsObj.wf (byId state) → NoDup (ids state) →
  (∀ id, id ∈ assetIds →
     service_description (JsObj.get id (byId state)) = rejected) →
  (∀ k, k ∈ JsObj.keys (byId state) →
     JsObj.get k (byId (dispatch_all state meanwhile))
     = JsObj.get k (byId state)) →
  getAssetDescriptions service_description assetIds state meanwhile
  = Some (dispatch_all state meanwhile).
Proof.
  intros Hwf Hnd Hrej Hsame.
  unfold getAssetDescriptions, getAssetDescriptions_queryFn. simpl.
  rewrite record_descriptions_all_rejected.
  - unfold setAssets. simpl. f_equal.
    rewrite setAssets_stale_ids by done.
    rewrite spread_absorb; [by destruct (dispatch_all state meanwhile)|].
    intros k v Hin. rewrite Hsame.
    + by apply JsObjFacts.elem_of_get.
    + apply list_elem_of_fmap. by exists (k, v).
  - apply Forall_fmap, Forall_forall. intros id Hid. by apply Hrej.
Qed.

(** C6, amended. Partial-failure isolation. When every requested
    identifier has a record in the state the query read (or, having none,
    has its fetch rejected), the bulk description fetch goes through
    whatever requests are rejected. Every description that was fetched is
    recorded: the cache then holds, under that identifier, the record the
    query read with its [description] set to the fetched text and its
    other fields as they were. The dispatch leaves the record of an
    identifier whose fetch was rejected, and of one that was not requested,
    as it finds it, provided no action changed that record between the
    query's read and the dispatch; and it leaves the keys of [byId] and the
    [ids] as it finds them. *)
Theorem getAssetDescriptions_partial_failure assetIds state meanwhile :
  JsObj.wf (byId state) → NoDup (ids state) →
  (∀ id, id ∈ assetIds →
     is_Some (JsObj.get id (byId state)) ∨
     service_description (JsObj.get id (byId state)) = rejected) →
  ∃ state',
    getAssetDescriptions service_description assetIds state meanwhile
      = Some state' ∧
    (∀ id a d, id ∈ assetIds → JsObj.get id (byId state) = Some a →
       service_description (Some a) = fulfilled d →
       ∃ recorded,
         JsObj.get id (byId state') = Some recorded ∧
         description recorded = Some d ∧
         caip19 recorded = caip19 a ∧ name recorded = name a ∧
         symbol recorded = symbol a ∧ precision recorded = precision a ∧
         icon recorded = icon a ∧ color recorded = color a) ∧
    (∀ id, service_description (JsObj.get id (byId state)) = rejected →
       JsObj.get id (byId (dispatch_all state meanwhile))
         = JsObj.get id (byId state) →
       JsObj.get id (byId state')
         = JsObj.get id (byId (dispatch_all state meanwhile))) ∧
    (∀ id, id ∉ assetIds →
       JsObj.get id (byId (dispatch_all state meanwhile))
         = JsObj.get id (byId state) →
       JsObj.get id (byId state')
         = JsObj.get id (byId (dispatch_all state meanwhile))) ∧
    JsObj.keys (byId state')
      = JsObj.keys (byId (dispatch_all state meanwhile)) ∧
    ids state' = ids (dispatch_all state meanwhile).
Proof.
  intros Hwf Hnd Hin.
  destruct (record_descriptions_spec service_description
              (byId state) assetIds (byId state) Hin)
    as (r & Hr & Hkeys & Hful & Hother); [by left|].
  unfold getAssetDescriptions, getAssetDescriptions_queryFn. simpl.
  rewrite Hr. eexists. split; [reflexivity|]. simpl.
  set (current := dispatch_all state meanwhile).
  assert (Hwfr : JsObj.wf r) by (unfold JsObj.wf; by rewrite Hkeys).
  assert (Hget_in : ∀ id, id ∈ JsObj.keys r →
    JsObj.get id (JsObj.spread (byId current) r) = JsObj.get id r).
  { intros id Hid. destruct (JsObjFacts.keys_get _ _ Hid) as [v Hv].
    rewrite Hv. by apply JsObjFacts.get_spread_wf, JsObjFacts.get_elem_of. }
  assert (Hstale : ∀ id,
    JsObj.get id r = JsObj.get id (byId state) →
    JsObj.get id (byId current) = JsObj.get id (byId state) →
    JsObj.get id (JsObj.spread (byId current) r)
    = JsObj.get id (byId current)).
  { intros id Hr' Hsame. destruct (decide (id ∈ JsObj.keys r)) as [Hid|Hid].
    - by rewrite Hget_in, Hr', Hsame.
    - by rewrite JsObjFacts.get_spread_notin. }
  split_and!.
  - intros id a d Hid Ha Hd. exists (set_description d a).
    split; [|done]. rewrite Hget_in; [by eapply Hful|].
    rewrite Hkeys. by eapply JsObjFacts.get_Some_keys.
  - intros id Hrej Hsame. apply Hstale; [|done].
    destruct (Hother id) as [Heq|(_ & a & d & Ha & Hd & _)]; [done|].
    rewrite Ha in Hrej. congruence.
  - intros id Hid Hsame. apply Hstale; [|done].
    by destruct (Hother id) as [Heq|(? & _)].
  - apply keys_spread_same_keys. intros k Hk. rewrite Hkeys in Hk.
    by apply (dispatch_all_grows state meanwhile).
  - by apply setAssets_stale_ids.
Qed.

End descriptions_more.

Lemma getAssetDescriptions_all_rejected_witness :
  getAssetDescriptions Sample.service_description
    [caip19 Sample.btc; "eip155:1/erc20:0xunknown"] Sample.cache
    [FetchAssetFulfilled (caip19 Sample.yvUSDC) Sample.yvUSDC;
     FetchAssetRejected (caip19 Sample.fox)]
  = Some
      (dispatch_all Sample.cache
         [FetchAssetFulfilled (caip19 Sample.yvUSDC) Sample.yvUSDC;
          FetchAssetRejected (caip19 Sample.fox)]).
Proof.
  apply getAssetDescriptions_all_rejected.
  - unfold JsObj.wf. compute_done.
  - compute_done.
  - intros id Hid.
    repeat (apply elem_of_cons in Hid as [->|Hid]); [reflexivity..|].
    by apply elem_of_nil in Hid.
  - intros k Hk. change (k ∈ [caip19 Sample.eth; caip19 Sample.btc;
                               caip19 Sample.fox]) in Hk.
    repeat (apply elem_of_cons in Hk as [->|Hk]); [reflexivity..|].
    by apply elem_of_nil in Hk.
Defined.

(** C6, as stated, fails when the store changes between the query's read
    and its dispatch: bitcoin's description fetch is rejected, the other
    two succeed, and a fulfilled [fetchAsset] for bitcoin lands in the
    meantime. The dispatch then puts the copy the query read back over the
    record that had just arrived, so the record of the identifier whose
    fetch was rejected is not left as it was. *)
Lemma getAssetDescriptions_stale_copy :
  let fresh := set_description "Fresh" Sample.btc in
  let meanwhile := [FetchAssetFulfilled (caip19 Sample.btc) fresh] in
  let assetIds := [caip19 Sample.eth; caip19 Sample.btc; caip19 Sample.fox] in
  Sample.service_description (JsObj.get (caip19 Sample.btc) (byId Sample.cache))
    = rejected ∧
  Sample.service_description (JsObj.get (caip19 Sample.eth) (byId Sample.cache))
    = fulfilled "About Ethereum" ∧
  Sample.service_description (JsObj.get (caip19 Sample.fox) (byId Sample.cache))
    = fulfilled "About Fox" ∧
  JsObj.get (caip19 Sample.btc) (byId (dispatch_all Sample.cache meanwhile))
    = Some fresh ∧
  ∃ state',
    getAssetDescriptions Sample.service_description assetIds Sample.cache
      meanwhile = Some state' ∧
    JsObj.get (caip19 Sample.btc) (byId state') = Some Sample.btc ∧
    JsObj.get (caip19 Sample.btc) (byId state')
      ≠ JsObj.get (caip19 Sample.btc)
          (byId (dispatch_all Sample.cache meanwhile)).
Proof.
  intros fresh meanwhile assetIds.
  split_and!; [reflexivity..|].
  eexists. split_and!; [reflexivity | reflexivity | discriminate].
Qed.

(** Three requests on the sample cache, the one for bitcoin rejected, while
    a fetched asset arrives under a new identifier. *)
Lemma getAssetDescriptions_partial_failure_witness :
  ∃ state',
    getAssetDescriptions Sample.service_description
      [caip19 Sample.eth; caip19 Sample.btc; caip19 Sample.fox] Sample.cache
      [FetchAssetFulfilled (caip19 Sample.yvUSDC) Sample.yvUSDC]
      = Some state' ∧
    byId state' =
      [(caip19 Sample.eth, set_description "About Ethereum" Sample.eth);
       (caip19 Sample.btc, Sample.btc);
       (caip19 Sample.fox, set_description "About Fox" Sample.fox);
       (caip19 Sample.yvUSDC, Sample.yvUSDC)] ∧
    (∃ recorded,
       JsObj.get (caip19 Sample.eth) (byId state') = Some recorded ∧
       description recorded = Some "About Ethereum") ∧
    ids state' = ids Sample.cache ++ [caip19 Sample.yvUSDC].
Proof.
  destruct (getAssetDescriptions_partial_failure Sample.service_description
              [caip19 Sample.eth; caip19 Sample.btc; caip19 Sample.fox]
              Sample.cache
              [FetchAssetFulfilled (caip19 Sample.yvUSDC) Sample.yvUSDC])
    as (state' & Hrun & Hful & _ & _ & _ & Hids).
  - unfold JsObj.wf. compute_done.
  - compute_done.
  - intros id Hid. left. repeat (apply elem_of_cons in Hid as [->|Hid]);
      [vm_compute; eauto ..|by apply elem_of_nil in Hid].
  - exists state'. split_and!; [exact Hrun | | | exact Hids].
    + vm_compute in Hrun. by injection Hrun as <-.
    + destruct (Hful (caip19 Sample.eth) Sample.eth "About Ethereum")
        as (recorded & Hget & Hdesc & _); [left | reflexivity | reflexivity|].
      by exists recorded.
Defined.

(** ** More on [getYearnVaults] *)
Section getYearnVaults_more.
Context `{Caip19Codec}.
Implicit Types (vaults : list SupportedYearnVault.t) (balances : Balances)
  (yearn : option YearnVaultApi.t) (acc r : list (string * EarnVault.t)).

(** The loop asks the provider about held definitions only. *)
Lemma getYearnVaults_from_provider vaults balances yearn1 yearn2 acc :
  (∀ vault, vault ∈ vaults →
     is_Some (JsObj.get (vaultCaip19_of vault) balances) →
     await_pricePerShare yearn1 (SupportedYearnVault.vaultAddress vault)
     = await_pricePerShare yearn2 (SupportedYearnVault.vaultAddress vault)) →
  getYearnVaults_from vaults balances yearn1 acc
  = getYearnVaults_from vaults balances yearn2 acc.
Proof.
  revert acc. induction vaults as [|vault vaults IH]; intros acc Hagree; [done|].
  assert (Hagree' : ∀ v, v ∈ vaults →
     is_Some (JsObj.get (vaultCaip19_of v) balances) →
     await_pricePerShare yearn1 (SupportedYearnVault.vaultAddress v)
     = await_pricePerShare yearn2 (SupportedYearnVault.vaultAddress v)).
  { intros v Hv. apply Hagree. by right. }
  simpl.
  destruct (JsObj.get (vaultCaip19_of vault) balances) as [account|] eqn:Hbal;
    [|by apply IH].
  rewrite <- (Hagree vault); [|left | by rewrite Hbal].
  destruct (await_pricePerShare yearn1 _); [by apply IH | done].
Qed.

Lemma getYearnVaults_from_none_held vaults balances yearn acc :
  (∀ vault, vault ∈ vaults →
     JsObj.get (vaultCaip19_of vault) balances = None) →
  getYearnVaults_from vaults balances yearn acc = fulfilled acc.
Proof.
  revert acc. induction vaults as [|vault vaults IH]; intros acc Hnone; [done|].
  simpl. rewrite (Hnone vault) by left.
  apply IH. intros v Hv. apply Hnone. by right.
Qed.

(** With distinct addresses, the loop appends the held definitions in the
    order of the list. *)
Lemma getYearnVaults_from_keys vaults balances yearn acc r :
  NoDup (JsObj.keys acc ++ (SupportedYearnVault.vaultAddress <$> vaults)) →
  getYearnVaults_from vaults balances yearn acc = fulfilled r →
  JsObj.keys r
  = JsObj.keys acc ++
    (SupportedYearnVault.vaultAddress <$>
       filter (λ vault, is_Some (JsObj.get (vaultCaip19_of vault) balances))
         vaults).
Proof.
  revert acc. induction vaults as [|vault vaults IH]; intros acc Hnd Hrun.
  - simpl in Hrun. injection Hrun as <-. simpl. by rewrite app_nil_r.
  - simpl in Hrun. rewrite filter_cons. csimpl in Hnd.
    assert (Hfresh : SupportedYearnVault.vaultAddress vault ∉ JsObj.keys acc).
    { apply NoDup_app in Hnd as (_ & Hdisj & _).
      intros Hin. apply (Hdisj _ Hin). left. }
    destruct (JsObj.get (vaultCaip19_of vault) balances) as [account|] eqn:Hbal.
    + destruct (await_pricePerShare yearn _) as [pps|]; [|done].
      rewrite decide_True by eauto. csimpl.
      erewrite IH; [| |exact Hrun].
      * rewrite JsObjFacts.keys_set_notin by done. by rewrite <- app_assoc.
      * rewrite JsObjFacts.keys_set_notin by done. by rewrite <- app_assoc.
    + rewrite decide_False by (by intros [? ?]).
      apply IH; [|done].
      apply NoDup_app in Hnd as (Hacc & Hdisj & Hvs).
      apply NoDup_cons in Hvs as [_ Hvs].
      apply NoDup_app. split_and!; [done| |done].
      intros x Hx Hx'. apply (Hdisj x Hx). by right.
Qed.
End getYearnVaults_more.

(** X16. Without a vault provider ([yearn] is [null]) [getYearnVaults]
    never rejects, and every vault it computes has price per share zero. *)
Theorem getYearnVaults_without_provider `{Caip19Codec} `{VaultConstants}
    (balances : Balances) :
  ∃ vaults,
    getYearnVaults balances None = fulfilled vaults ∧
    ∀ addr ev, JsObj.get addr vaults = Some ev →
      EarnVault.pricePerShare ev = BigNumber.zero.
Proof.
  destruct (getYearnVaults_from_fulfilled SUPPORTED_VAULTS balances None [])
    as [vaults Hrun]; [done|].
  exists vaults. split; [exact Hrun|]. intros addr ev Hev.
  destruct (getYearnVaults_from_entries _ _ _ _ _ Hrun addr ev Hev)
    as [Hnil|(v & a & p & _ & _ & _ & Hawait & _ & _ & _ & _ & Hp)]; [done|].
  simpl in Hawait. injection Hawait as <-. exact Hp.
Qed.

(** X17. The provider is asked about held vaults only: two providers that
    answer alike for the addresses of the held definitions give the same
    result, whatever they would answer, or reject, for the others. *)
Theorem getYearnVaults_asks_held_only `{Caip19Codec} `{VaultConstants}
    (balances : Balances) (yearn1 yearn2 : option YearnVaultApi.t) :
  (∀ vault, vault ∈ SUPPORTED_VAULTS →
     is_Some (JsObj.get (vaultCaip19_of vault) balances) →
     await_pricePerShare yearn1 (SupportedYearnVault.vaultAddress vault)
     = await_pricePerShare yearn2 (SupportedYearnVault.vaultAddress vault)) →
  getYearnVaults balances yearn1 = getYearnVaults balances yearn2.
Proof. apply getYearnVaults_from_provider. Qed.

Lemma getYearnVaults_asks_held_only_witness :
  @getYearnVaults Sample.codec Sample.constants Sample.balances_usdc
    (Some Sample.yearn_failing)
  = @getYearnVaults Sample.codec Sample.constants Sample.balances_usdc
      (Some {| YearnVaultApi.pricePerShare := λ _,
                 fulfilled (Some (Sample.of_Z 2000000000000000000));
               YearnVaultApi.findByVaultTokenId := λ _, None |}).
Proof.
  apply (@getYearnVaults_asks_held_only Sample.codec Sample.constants).
  intros vault Hin Hheld.
  change (vault ∈ [Sample.usdcVault; Sample.daiVault]) in Hin.
  repeat (apply elem_of_cons in Hin as [->|Hin]).
  - reflexivity.
  - destruct Hheld as [account Hheld]. discriminate Hheld.
  - by apply elem_of_nil in Hin.
Defined.

(** X18. A wallet that holds none of the vault tokens (an empty balance
    snapshot among them) gets the empty result, and no provider call is
    made: not even a provider that always rejects makes the call fail. *)
Theorem getYearnVaults_none_held `{Caip19Codec} `{VaultConstants}
    (balances : Balances) (yearn : option YearnVaultApi.t) :
  (∀ vault, vault ∈ SUPPORTED_VAULTS →
     JsObj.get (vaultCaip19_of vault) balances = None) →
  getYearnVaults balances yearn = fulfilled [].
Proof. apply getYearnVaults_from_none_held. Qed.

Lemma getYearnVaults_none_held_witness :
  @getYearnVaults Sample.codec Sample.constants []
    (Some {| YearnVaultApi.pricePerShare := λ _, rejected;
             YearnVaultApi.findByVaultTokenId := λ _, None |})
  = fulfilled [].
Proof.
  apply (@getYearnVaults_none_held Sample.codec Sample.constants).
  intros vault _. reflexivity.
Defined.

(** X19. When the vault addresses of the static list are distinct, the
    keys of the computed vaults are the addresses of the held definitions,
    in the order of the list. *)
Theorem getYearnVaults_keys `{Caip19Codec} `{VaultConstants}
    (balances : Balances) (yearn : option YearnVaultApi.t)
    (vaults : list (string * EarnVault.t)) :
  NoDup (SupportedYearnVault.vaultAddress <$> SUPPORTED_VAULTS) →
  getYearnVaults balances yearn = fulfilled vaults →
  JsObj.keys vaults
  = SupportedYearnVault.vaultAddress <$>
      filter (λ vault, is_Some (JsObj.get (vaultCaip19_of vault) balances))
        SUPPORTED_VAULTS.
Proof.
  intros Hnd Hrun.
  by rewrite (getYearnVaults_from_keys _ _ _ [] _ Hnd Hrun).
Qed.

Lemma getYearnVaults_keys_witness :
  ∃ vaults,
    @getYearnVaults Sample.codec Sample.constants Sample.balances
      (Some Sample.yearn_silent) = fulfilled vaults ∧
    JsObj.keys vaults = ["0x5f18"; "0xda81"].
Proof.
  eexists. split; [reflexivity|].
  rewrite (@getYearnVaults_keys Sample.codec Sample.constants Sample.balances
             (Some Sample.yearn_silent) _); [reflexivity | | reflexivity].
  compute_done.
Defined.

(** ** Amounts *)

(** With the asset record at hand the fiat amount is a finite number. *)
Lemma makeVaultFiatAmount_finite assets marketData_byId vault :
  is_Some (JsObj.get (EarnVault.vaultCaip19 vault) assets) →
  ∃ q, makeVaultFiatAmount assets marketData_byId vault = BigNumber.Finite q.
Proof.
  intros [asset Hasset]. unfold makeVaultFiatAmount. rewrite Hasset.
  destruct (bnOrZero_Finite (EarnVault.balance vault)) as [b ->].
  destruct (bnOrZero_Finite (Some (EarnVault.pricePerShare vault))) as [s ->].
  destruct (bnOrZero_Finite
              (JsObj.get (EarnVault.tokenCaip19 vault) marketData_byId
                 ≫= price)) as [m ->].
  simpl. destruct (decide _) as [H0|_]; [by apply ten_pow_nonzero in H0|].
  simpl. eauto.
Qed.

(** X20. A vault whose underlying token has no market price (no
    market-data record, or a record without price) has fiat amount exactly
    zero when its vault-token asset record is in the catalog: a missing
    price counts as zero, not as [NaN]. *)
Theorem makeVaultFiatAmount_no_price assets marketData_byId vault :
  is_Some (JsObj.get (EarnVault.vaultCaip19 vault) assets) →
  JsObj.get (EarnVault.tokenCaip19 vault) marketData_byId ≫= price = None →
  makeVaultFiatAmount assets marketData_byId vault = BigNumber.zero.
Proof.
  intros [asset Hasset] Hprice. unfold makeVaultFiatAmount.
  rewrite Hasset, Hprice.
  destruct (bnOrZero_Finite (EarnVault.balance vault)) as [b ->].
  destruct (bnOrZero_Finite (Some (EarnVault.pricePerShare vault))) as [s ->].
  simpl. destruct (decide _) as [H0|_]; [by apply ten_pow_nonzero in H0|].
  simpl. unfold BigNumber.zero. f_equal. ring.
Qed.

Lemma makeVaultFiatAmount_no_price_witness :
  makeVaultFiatAmount [(caip19 Sample.yvUSDC, Sample.yvUSDC)] [] Sample.held
  = BigNumber.zero.
Proof.
  apply makeVaultFiatAmount_no_price.
  - by eexists.
  - reflexivity.
Defined.

Lemma totalBalance_fold assets marketData_byId (vaults : list EarnVault.t)
    (qs : list Qc) (a : Qc) :
  Forall2 (λ vault q,
     makeVaultFiatAmount assets marketData_byId vault = BigNumber.Finite q)
    vaults qs →
  foldl
    (λ acc vault,
       let amount := makeVaultFiatAmount assets marketData_byId vault in
       BigNumber.plus acc (bnOrZero (Some amount)))
    (BigNumber.Finite a) vaults
  = BigNumber.Finite (a + foldr Qcplus 0%Qc qs)%Qc.
Proof.
  intros Hall. revert a.
  induction Hall as [|vault q vaults qs Hq Hall IH]; intros a; simpl.
  - f_equal. ring.
  - rewrite Hq. simpl. rewrite IH. f_equal. ring.
Qed.

(** X21. The portfolio total is the exact sum of the fiat amounts of the
    vaults, whenever these amounts are finite numbers; for no vault at all
    it is zero. *)
Theorem totalBalance_sum assets marketData_byId
    (vaults : list (string * EarnVault.t)) (qs : list Qc) :
  Forall2 (λ vault q,
     makeVaultFiatAmount assets marketData_byId vault = BigNumber.Finite q)
    (JsObj.values vaults) qs →
  totalBalance assets marketData_byId vaults
  = BigNumber.Finite (foldr Qcplus 0%Qc qs).
Proof.
  intros Hall. unfold totalBalance.
  etransitivity; [exact (totalBalance_fold _ _ _ qs 0%Qc Hall)|].
  f_equal. ring.
Qed.

Lemma totalBalance_sum_witness :
  totalBalance [(caip19 Sample.yvUSDC, Sample.yvUSDC)] Sample.prices
    [("0x5f18", Sample.held); ("0xcopy", Sample.held)]
  = Sample.of_Z 40 ∧
  totalBalance [(caip19 Sample.yvUSDC, Sample.yvUSDC)] Sample.prices []
  = BigNumber.zero.
Proof.
  split.
  - rewrite (totalBalance_sum [(caip19 Sample.yvUSDC, Sample.yvUSDC)]
               Sample.prices [("0x5f18", Sample.held); ("0xcopy", Sample.held)]
               [Q2Qc (inject_Z 20); Q2Qc (inject_Z 20)]).
    + unfold Sample.of_Z. f_equal.
    + repeat constructor.
  - apply (totalBalance_sum [(caip19 Sample.yvUSDC, Sample.yvUSDC)]
             Sample.prices [] []).
    constructor.
Defined.

(** X22. [cryptoAmount] looks the asset up under the vault address. When
    no vault address of the static list is a key of the catalog, every
    vault of the merged view of the computed vaults has [cryptoAmount]
    ["NaN"], whatever its balance is. *)
Theorem mergedVaults_cryptoAmount_NaN
    `{Caip19Codec} `{VaultConstants} `{BigNumber.Format}
    (balances : Balances) (yearn : option YearnVaultApi.t)
    (vaults : list (string * EarnVault.t))
    (assets : list (string * Asset))
    (marketData_byId : list (string * MarketData)) :
  getYearnVaults balances yearn = fulfilled vaults →
  (∀ vault, vault ∈ SUPPORTED_VAULTS →
     SupportedYearnVault.vaultAddress vault ∉ JsObj.keys assets) →
  ∀ vaultAddress merged,
    JsObj.get vaultAddress (mergedVaults assets marketData_byId yearn vaults)
      = Some merged →
    MergedEarnVault.cryptoAmount merged = "NaN".
Proof.
  intros Hrun Hkeys vaultAddress merged.
  rewrite mergedVaults_entries
    by (eapply getYearnVaults_from_wf; [exact Hrun | apply NoDup_nil_2]).
  rewrite (get_fmap_entries (mergedVault assets marketData_byId yearn)).
  destruct (JsObj.get vaultAddress vaults) as [ev|] eqn:Hev; [|done].
  intros [= <-]. simpl.
  destruct (getYearnVaults_from_entries _ _ _ _ _ Hrun _ ev Hev)
    as [Hnil|(v & _ & _ & Hv & -> & _)]; [done|].
  apply Hkeys, JsObjFacts.get_None_keys in Hv. rewrite Hv. simpl.
  by rewrite div_NaN.
Qed.

Lemma mergedVaults_cryptoAmount_NaN_witness :
  ∃ vaults merged,
    @getYearnVaults Sample.codec Sample.constants Sample.balances_usdc
      (Some Sample.yearn_failing) = fulfilled vaults ∧
    JsObj.get "0x5f18"
      (@mergedVaults Sample.notation [(caip19 Sample.yvUSDC, Sample.yvUSDC)]
         Sample.prices (Some Sample.yearn_failing) vaults) = Some merged ∧
    MergedEarnVault.fiatAmount merged = "20" ∧
    MergedEarnVault.cryptoAmount merged = "NaN".
Proof.
  eexists _, _. split_and!; [reflexivity | reflexivity | reflexivity |].
  apply (@mergedVaults_cryptoAmount_NaN
           Sample.codec Sample.constants Sample.notation
           Sample.balances_usdc (Some Sample.yearn_failing) _
           [(caip19 Sample.yvUSDC, Sample.yvUSDC)] Sample.prices
           eq_refl) with (vaultAddress := "0x5f18"); [|reflexivity].
  intros vault Hin.
  change (vault ∈ [Sample.usdcVault; Sample.daiVault]) in Hin.
  repeat (apply elem_of_cons in Hin as [->|Hin]);
    [compute_done.. | by apply elem_of_nil in Hin].
Defined.

(** ** The fetches of the effect *)

Lemma elem_of_effect_fetchAsset_args
    (yearnVaults : list (string * EarnVault.t)) addr vault :
  JsObj.get addr yearnVaults = Some vault →
  EarnVault.vaultCaip19 vault ∈ effect_fetchAsset_args yearnVaults ∧
  EarnVault.tokenCaip19 vault ∈ effect_fetchAsset_args yearnVaults.
Proof.
  intros Hget. apply JsObjFacts.get_elem_of in Hget.
  unfold effect_fetchAsset_args, JsObj.values.
  split; apply list_elem_of_In, in_flat_map; exists vault;
    (split; [apply list_elem_of_In, list_elem_of_fmap; by exists (addr, vault)|]);
    simpl; auto.
Qed.

Lemma dispatch_all_fetched_record
    (state : AssetsState) (actions : list AssetAction) k payload :
  FetchAssetFulfilled k payload ∈ actions →
  is_Some (JsObj.get k (byId (dispatch_all state actions))).
Proof.
  intros Hin. apply list_elem_of_split in Hin as (before & after & ->).
  unfold dispatch_all. rewrite foldl_app. simpl.
  apply JsObjFacts.keys_get.
  apply (dispatch_all_grows
           (fetchAsset_fulfilled (foldl assets_reducer state before) k payload)
           after).
  simpl. apply JsObjFacts.elem_of_keys_set. by left.
Qed.

(** X23. The effect fetches what the amounts need: once every
    [fetchAsset] it dispatches for the computed vaults has been fulfilled,
    in whatever order and among whatever other actions, the fiat amount of
    every one of these vaults over the cache is a finite number, not
    [NaN]. *)
Theorem effect_fetches_make_amounts_finite
    (yearnVaults : list (string * EarnVault.t))
    (state : AssetsState) (actions : list AssetAction)
    (marketData_byId : list (string * MarketData)) :
  (∀ k, k ∈ effect_fetchAsset_args yearnVaults →
     ∃ payload, FetchAssetFulfilled k payload ∈ actions) →
  ∀ addr vault, JsObj.get addr yearnVaults = Some vault →
    ∃ q,
      makeVaultFiatAmount (selectAssets (dispatch_all state actions))
        marketData_byId vault
      = BigNumber.Finite q.
Proof.
  intros Hfetched addr vault Hget.
  destruct (elem_of_effect_fetchAsset_args _ _ _ Hget) as [Hv _].
  destruct (Hfetched _ Hv) as [payload Hin].
  apply makeVaultFiatAmount_finite. unfold selectAssets.
  by eapply dispatch_all_fetched_record.
Qed.

Lemma effect_fetches_make_amounts_finite_witness :
  effect_fetchAsset_args [("0x5f18", Sample.held)]
    = ["eip155:1/erc20:0x5f18"; "eip155:1/erc20:0xa0b8"] ∧
  ∃ q,
    makeVaultFiatAmount
      (selectAssets
         (dispatch_all initialState
            [FetchAssetFulfilled "eip155:1/erc20:0xa0b8" Sample.fox;
             FetchAssetFulfilled "eip155:1/erc20:0x5f18" Sample.yvUSDC]))
      Sample.prices Sample.held
    = BigNumber.Finite q.
Proof.
  split; [reflexivity|].
  apply (effect_fetches_make_amounts_finite [("0x5f18", Sample.held)]
           initialState _ Sample.prices) with (addr := "0x5f18");
    [|reflexivity].
  intros k Hk. change (k ∈ ["eip155:1/erc20:0x5f18"; "eip155:1/erc20:0xa0b8"]) in Hk.
  repeat (apply elem_of_cons in Hk as [->|Hk]).
  - exists Sample.yvUSDC. right. left.
  - exists Sample.fox. left.
  - by apply elem_of_nil in Hk.
Defined.

(** ** The record of a held vault *)
Section vault_record.
Context `{Caip19Codec}.

Lemma NoDup_fmap_elem_inj {A B} (f : A → B) (l : list A) (x y : A) :
  NoDup (f <$> l) → x ∈ l → y ∈ l → f x = f y → x = y.
Proof.
  induction l as [|a l IH]; csimpl; [by intros _ ?%elem_of_nil|].
  rewrite NoDup_cons. intros [Ha Hnd] Hx Hy Hf.
  apply elem_of_cons in Hx as [->|Hx]; apply elem_of_cons in Hy as [->|Hy].
  - done.
  - exfalso. apply Ha. rewrite Hf. apply list_elem_of_fmap. by exists y.
  - exfalso. apply Ha. rewrite <- Hf. apply list_elem_of_fmap. by exists x.
  - by apply IH.
Qed.

(** Every entry made by the loop is the record of one definition. *)
Lemma getYearnVaults_from_records
    (vaults : list SupportedYearnVault.t) (balances : Balances)
    (yearn : option YearnVaultApi.t) (acc r : list (string * EarnVault.t)) :
  getYearnVaults_from vaults balances yearn acc = fulfilled r →
  ∀ addr ev, JsObj.get addr r = Some ev →
    JsObj.get addr acc = Some ev ∨
    ∃ vault account pps,
      vault ∈ vaults ∧
      addr = SupportedYearnVault.vaultAddress vault ∧
      JsObj.get (vaultCaip19_of vault) balances = Some account ∧
      await_pricePerShare yearn addr = fulfilled pps ∧
      ev = {| EarnVault.chain := SupportedYearnVault.chain vault;
              EarnVault.vaultAddress := SupportedYearnVault.vaultAddress vault;
              EarnVault.tokenAddress := SupportedYearnVault.tokenAddress vault;
              EarnVault.balance := Account.balance account;
              EarnVault.vaultCaip19 := vaultCaip19_of vault;
              EarnVault.tokenCaip19 := tokenCaip19_of vault;
              EarnVault.pricePerShare := bnOrZero pps |}.
Proof.
  revert acc. induction vaults as [|vault vaults IH]; intros acc Hrun addr ev Hev.
  - simpl in Hrun. injection Hrun as <-. by left.
  - simpl in Hrun.
    destruct (JsObj.get (vaultCaip19_of vault) balances) as [account|] eqn:Hbal.
    + destruct (await_pricePerShare yearn _) as [pps|] eqn:Hpps; [|done].
      destruct (IH _ Hrun addr ev Hev) as [Hacc|(v & a & p & Hv & Hrest)].
      * destruct (decide (SupportedYearnVault.vaultAddress vault = addr))
          as [<-|Hne].
        -- rewrite JsObjFacts.get_set_eq in Hacc. injection Hacc as <-.
           right. exists vault, account, pps. split_and!; try done. left.
        -- rewrite JsObjFacts.get_set_ne in Hacc by done. by left.
      * right. exists v, a, p. split; [by right | done].
    + destruct (IH _ Hrun addr ev Hev) as [Hacc|(v & a & p & Hv & Hrest)].
      * by left.
      * right. exists v, a, p. split; [by right | done].
Qed.
End vault_record.

(** X24. The record of a held vault: when the vault addresses of the
    static list are distinct and the call resolves, the entry under the
    address of a held definition carries the fields of that definition,
    the raw balance of the wallet's entry, the two identifiers, and
    [bnOrZero] of what the provider answered for that address. *)
Theorem getYearnVaults_record `{Caip19Codec} `{VaultConstants}
    (balances : Balances) (yearn : option YearnVaultApi.t)
    (vaults : list (string * EarnVault.t))
    (vault : SupportedYearnVault.t) (account : Account.t) (pps : Value) :
  NoDup (SupportedYearnVault.vaultAddress <$> SUPPORTED_VAULTS) →
  getYearnVaults balances yearn = fulfilled vaults →
  vault ∈ SUPPORTED_VAULTS →
  JsObj.get (vaultCaip19_of vault) balances = Some account →
  await_pricePerShare yearn (SupportedYearnVault.vaultAddress vault)
    = fulfilled pps →
  JsObj.get (SupportedYearnVault.vaultAddress vault) vaults
  = Some {| EarnVault.chain := SupportedYearnVault.chain vault;
            EarnVault.vaultAddress := SupportedYearnVault.vaultAddress vault;
            EarnVault.tokenAddress := SupportedYearnVault.tokenAddress vault;
            EarnVault.balance := Account.balance account;
            EarnVault.vaultCaip19 := vaultCaip19_of vault;
            EarnVault.tokenCaip19 := tokenCaip19_of vault;
            EarnVault.pricePerShare := bnOrZero pps |}.
Proof.
  intros Hnd Hrun Hin Hbal Hpps.
  destruct (getYearnVaults_from_is_Some _ _ _ _ _
              (SupportedYearnVault.vaultAddress vault) Hrun) as [ev Hev].
  { right. exists vault. by rewrite Hbal. }
  rewrite Hev. f_equal.
  destruct (getYearnVaults_from_records _ _ _ _ _ Hrun _ ev Hev)
    as [Hnil|(v & a & p & Hv & Haddr & Hbalv & Hawait & ->)]; [done|].
  assert (v = vault) as ->.
  { by apply (NoDup_fmap_elem_inj SupportedYearnVault.vaultAddress
                SUPPORTED_VAULTS). }
  rewrite Hbal in Hbalv. injection Hbalv as <-.
  rewrite Hpps in Hawait. by injection Hawait as <-.
Qed.

Lemma getYearnVaults_record_witness :
  ∃ vaults,
    @getYearnVaults Sample.codec Sample.constants Sample.balances_usdc
      (Some Sample.yearn_failing) = fulfilled vaults ∧
    JsObj.get "0x5f18" vaults = Some Sample.held.
Proof.
  eexists. split; [reflexivity|].
  apply (@getYearnVaults_record Sample.codec Sample.constants
           Sample.balances_usdc (Some Sample.yearn_failing) _
           Sample.usdcVault Sample.one_unit
           (Some (Sample.of_Z 2000000000000000000))).
  - compute_done.
  - reflexivity.
  - left.
  - reflexivity.
  - reflexivity.
Defined.
